(** * AliceVision fuseCut: the tetrahedral graph-cut cell complex

    A shallow embedding of [aliceVision/fuseCut/DelaunayGraphCut.hpp]:
    facets of the tetrahedralization, facet mirroring, the vertex-to-cells
    cache and its queries, followed by the topology-repair step declared in
    that header and by the view id method of [aliceVision/sfmDataIO/viewIO.hpp]. *)

From Stdlib Require Import ZArith List Lia Bool Permutation.
From stdpp Require Import gmap list sorting.
From stdpp Require Import strings pretty.

Local Open Scope Z_scope.

(** ** Machine integers *)

(** [GEO::index_t] is an unsigned 32-bit integer and [GEO::signed_index_t]
    its signed companion.  Converting a signed value to [index_t] wraps
    modulo [2^32]. *)
Definition index_modulus : Z := 2 ^ 32.

Definition to_index (z : Z) : Z := z mod index_modulus.

(** [GEO::NO_CELL] and [GEO::NO_VERTEX] are both [index_t(-1)]. *)
Definition NO_CELL : Z := to_index (-1).
Definition NO_VERTEX : Z := to_index (-1).

(** [std::size_t] is 64 bits wide; an [int] compared with a size is first
    converted to it. *)
Definition size_modulus : Z := 2 ^ 64.

Definition to_size (z : Z) : Z := z mod size_modulus.

(** The values an [int] can hold. *)
Definition int_range (z : Z) : Prop := - 2 ^ 31 <= z < 2 ^ 31.

(** ** The triangulation backend

    [GEO::Delaunay] is consumed through its accessors only.  [cell_vertex]
    and [cell_adjacent] return a [signed_index_t], with [-1] for the vertex
    at infinity and for a missing neighbour. *)
Record Delaunay : Type := {
  nb_cells : Z;
  nb_vertices : Z;
  cell_vertex : Z -> Z -> Z;
  cell_adjacent : Z -> Z -> Z;
  cell_is_infinite : Z -> bool
}.

(** ** Facets *)

Record Facet : Type := {
  cellIndex : Z;
  (** local opposite vertex index *)
  localVertexIndex : Z
}.

(** [Facet()] leaves both members at their default initialisers. *)
Definition defaultFacet : Facet :=
  {| cellIndex := NO_CELL; localVertexIndex := NO_VERTEX |}.

Global Instance Facet_eq_dec : EqDecision Facet.
Proof. solve_decision. Defined.

(** Modelled from the spec: [GC_vertexInfo] is declared in
    delaunayGraphCutTypes.hpp, which is not part of the sources at hand.  The
    only attribute kept is the mark put on synthetic helper vertices (camera
    centres and lattice points). *)
Record GC_vertexInfo : Type := {
  isHelper : bool
}.

(** ** The graph-cut object

    The members of [DelaunayGraphCut] read or written by the functions
    below.  Point coordinates are kept abstract: only their number matters
    here. *)
Record DelaunayGraphCut (Point3d : Type) : Type := {
  _tetrahedralization : Delaunay;
  _verticesCoords : list Point3d;
  _verticesAttr : list GC_vertexInfo;
  _cellIsFull : list bool;
  _neighboringCellsPerVertex : list (list Z)
}.

Arguments _tetrahedralization {Point3d} _.
Arguments _verticesCoords {Point3d} _.
Arguments _verticesAttr {Point3d} _.
Arguments _cellIsFull {Point3d} _.
Arguments _neighboringCellsPerVertex {Point3d} _.

(** ** Facet accessors *)

Definition getOppositeVertexIndex (T : Delaunay) (f : Facet) : Z :=
  to_index (cell_vertex T (cellIndex f) (localVertexIndex f)).

(** The local slot [(f.localVertexIndex + i + 1) % 4], computed in unsigned
    32-bit arithmetic ([i] is an [int], converted first). *)
Definition localSlot (f : Facet) (i : Z) : Z :=
  to_index (to_index (localVertexIndex f + to_index i) + 1) mod 4.

Definition getVertexIndex (T : Delaunay) (f : Facet) (i : Z) : Z :=
  to_index (cell_vertex T (cellIndex f) (localSlot f i)).

(** The array [facetVertices] built at the start of [mirrorFacet]. *)
Definition facetVertices (T : Delaunay) (f : Facet) : list Z :=
  [getVertexIndex T f 0; getVertexIndex T f 1; getVertexIndex T f 2].

(** The four vertex references of a cell, read as [index_t]. *)
Definition cellVertices (T : Delaunay) (ci : Z) : list Z :=
  map (fun k => to_index (cell_vertex T ci k)) [0; 1; 2; 3].

Definition isInfiniteCell (T : Delaunay) (ci : Z) : bool :=
  cell_is_infinite T ci.

Definition isInvalidOrInfiniteCell (T : Delaunay) (ci : Z) : bool :=
  (ci =? NO_CELL) || isInfiniteCell T ci.

(** ** Facet mirroring *)

(** [std::find(first, last, v) != last]. *)
Definition found (v : Z) (vs : list Z) : bool := existsb (Z.eqb v) vs.

(** The loop [for k ...] of [mirrorFacet], over the slots still to visit:
    the first slot of cell [out_ci] whose vertex is not a facet vertex. *)
Fixpoint searchAbsentVertex (T : Delaunay) (out_ci : Z) (fv : list Z)
    (ks : list Z) : option Z :=
  match ks with
  | [] => None
  | k :: ks' =>
      let out_vi := to_index (cell_vertex T out_ci k) in
      if negb (found out_vi fv) then Some k
      else searchAbsentVertex T out_ci fv ks'
  end.

Definition mirrorFacet (T : Delaunay) (f : Facet) : Facet :=
  let fv := facetVertices T f in
  let out_ci := to_index (cell_adjacent T (cellIndex f) (localVertexIndex f)) in
  if out_ci =? NO_CELL then
    {| cellIndex := out_ci; localVertexIndex := NO_VERTEX |}
  else
    match searchAbsentVertex T out_ci fv [0; 1; 2; 3] with
    | Some k => {| cellIndex := out_ci; localVertexIndex := to_index k |}
    | None => {| cellIndex := out_ci; localVertexIndex := NO_VERTEX |}
    end.

(** ** Exceptions *)

Inductive exception : Type :=
| out_of_range.

Inductive result (A : Type) : Type :=
| Ok (a : A)
| Throw (e : exception).

Arguments Ok {A} _.
Arguments Throw {A} _.

(** The element of a vector at an integer position, when there is one. *)
Fixpoint lookupZ {A : Type} (l : list A) (pos : Z) : option A :=
  match l with
  | [] => None
  | a :: l' => if pos =? 0 then Some a else lookupZ l' (pos - 1)
  end.

(** [std::vector::at]: bounds-checked access with a [size_t] position. *)
Definition vector_at {A : Type} (v : list A) (pos : Z) : result A :=
  match lookupZ v pos with
  | Some a => Ok a
  | None => Throw out_of_range
  end.

(** ** The vertex-to-cells cache *)

(** [neighboringCellsPerVertexTmp[vi].insert(ci)]: [operator[]] creates an
    empty set for a new key. *)
Definition insertNeighbor (tmp : gmap Z (gset Z)) (vi ci : Z) : gmap Z (gset Z) :=
  <[vi := {[ci]} ∪ default ∅ (tmp !! vi)]> tmp.

(** One turn of the inner loop over the slots [k] of cell [ci]; the state is
    the temporary map and the counter [coutInvalidVertices]. *)
Definition visitSlot {Point3d : Type} (st : DelaunayGraphCut Point3d) (ci : Z)
    (acc : gmap Z (gset Z) * Z) (k : Z) : gmap Z (gset Z) * Z :=
  let vi := to_index (cell_vertex (_tetrahedralization st) ci k) in
  if (vi =? NO_VERTEX) || (vi >=? Z.of_nat (length (_verticesCoords st))) then
    (acc.1, acc.2 + 1)
  else
    (insertNeighbor acc.1 vi ci, acc.2).

Definition visitCell {Point3d : Type} (st : DelaunayGraphCut Point3d)
    (acc : gmap Z (gset Z) * Z) (ci : Z) : gmap Z (gset Z) * Z :=
  fold_left (visitSlot st ci) [0; 1; 2; 3] acc.

Definition collectNeighbors {Point3d : Type} (st : DelaunayGraphCut Point3d)
    : gmap Z (gset Z) * Z :=
  fold_left (visitCell st) (seqZ 0 (nb_cells (_tetrahedralization st))) (∅, 0).

(** [output.assign(input.begin(), input.end())]: a [std::set] is traversed
    in increasing order. *)
Definition assignFromSet (input : gset Z) : list Z :=
  merge_sort Z.le (elements input).

(** The final loop over the entries of the temporary map. *)
Definition storeEntry (cache : list (list Z)) (it : Z * gset Z) : list (list Z) :=
  <[Z.to_nat it.1 := assignFromSet it.2]> cache.

Definition updateVertexToCellsCache {Point3d : Type}
    (st : DelaunayGraphCut Point3d) : DelaunayGraphCut Point3d :=
  let tmp := (collectNeighbors st).1 in
  let resized := replicate (length (_verticesCoords st)) ([] : list Z) in
  {| _tetrahedralization := _tetrahedralization st;
     _verticesCoords := _verticesCoords st;
     _verticesAttr := _verticesAttr st;
     _cellIsFull := _cellIsFull st;
     _neighboringCellsPerVertex := fold_left storeEntry (map_to_list tmp) resized |}.

(** [vertexToCells]: [lvi] is an [int]; the comparison with
    [localCells.size()] and the subscript both convert it to [size_t]. *)
Definition vertexToCells {Point3d : Type} (st : DelaunayGraphCut Point3d)
    (vi lvi : Z) : result Z :=
  match vector_at (_neighboringCellsPerVertex st) vi with
  | Throw e => Throw e
  | Ok localCells =>
      if to_size lvi >=? Z.of_nat (length localCells) then Ok NO_CELL
      else Ok (default NO_CELL (lookupZ localCells (to_size lvi)))
  end.

Definition getNeighboringCellsByVertexIndex {Point3d : Type}
    (st : DelaunayGraphCut Point3d) (vi : Z) : result (list Z) :=
  vector_at (_neighboringCellsPerVertex st) vi.

(** ** Cell labels *)

(** [_cellIsFull[ci]], when [ci] is a position of the vector. *)
Definition cellLabel (labels : list bool) (ci : Z) : option bool :=
  lookupZ labels ci.

(** The cells across the four facets of a cell: the cell of each facet's
    mirror. *)
Definition mirrorCells (T : Delaunay) (ci : Z) : list Z :=
  map (fun k => cellIndex (mirrorFacet T {| cellIndex := ci; localVertexIndex := k |}))
      [0; 1; 2; 3].

(** ** Topology repair *)

(** Modelled from the spec: [segmentFullOrFree] is only declared in the
    header; its body is missing.  The spec describes it as a flood fill of
    the connected components of same-labelled cells via facet adjacency,
    crossing only facets whose mirror cell shares the label, and returning a
    component id per cell together with the number of components.

    A facet is crossed towards a cell when that cell exists, carries the
    label being segmented and has no component id yet. *)
Definition crossable (labels : list bool) (full : bool) (colors : gmap Z nat)
    (nci : Z) : Prop :=
  nci ≠ NO_CELL ∧ cellLabel labels nci = Some full ∧ colors !! nci = None.

Global Instance crossable_dec labels full colors nci :
  Decision (crossable labels full colors nci).
Proof. unfold crossable. apply _. Defined.

(** One round of the fill: every crossable cell across a facet of a cell
    already reached is added. *)
Definition floodRound (T : Delaunay) (labels : list bool) (full : bool)
    (colors : gmap Z nat) (reached : gset Z) : gset Z :=
  reached ∪
  list_to_set (ci ← elements reached;
               filter (crossable labels full colors) (mirrorCells T ci)).

(** The fill itself; a round adds at least one labelled cell or changes
    nothing, so as many rounds as there are labels always suffice. *)
Fixpoint floodFill (T : Delaunay) (labels : list bool) (full : bool)
    (colors : gmap Z nat) (rounds : nat) (reached : gset Z) : gset Z :=
  match rounds with
  | O => reached
  | S n => floodFill T labels full colors n (floodRound T labels full colors reached)
  end.

(** One turn of the loop over the cells: an uncoloured cell with the wanted
    label seeds a new component, coloured with the next id. *)
Definition segmentStep (T : Delaunay) (labels : list bool) (full : bool)
    (acc : gmap Z nat * nat) (ci : Z) : gmap Z nat * nat :=
  if decide (cellLabel labels ci = Some full ∧ acc.1 !! ci = None) then
    let segment := floodFill T labels full acc.1 (length labels) {[ci]} in
    (gset_to_gmap acc.2 segment ∪ acc.1, S acc.2)
  else acc.

(** Component id per cell and number of components. *)
Definition segmentCells (T : Delaunay) (labels : list bool) (full : bool)
    : gmap Z nat * nat :=
  fold_left (segmentStep T labels full) (seqZ 0 (nb_cells T)) (∅, O).

Definition segmentFullOrFree {Point3d : Type} (st : DelaunayGraphCut Point3d)
    (full : bool) : gmap Z nat * nat :=
  segmentCells (_tetrahedralization st) (_cellIsFull st) full.

(** The cells carrying component id [col]. *)
Definition componentCells (colors : gmap Z nat) (col : nat) : gset Z :=
  dom (filter (fun kv => kv.2 = col) colors).

(** Modelled from the spec: [removeDust] is only declared in the header.
    Per the spec, any full component with cell count below [minSegSize] is
    relabelled empty. *)
Definition dustLabel (colors : gmap Z nat) (minSegSize : Z) (i : nat)
    (full : bool) : bool :=
  match colors !! Z.of_nat i with
  | Some col =>
      if full && (Z.of_nat (size (componentCells colors col)) <? minSegSize)
      then false else full
  | None => full
  end.

Definition removeDustLabels (T : Delaunay) (labels : list bool)
    (minSegSize : Z) : list bool :=
  imap (dustLabel (segmentCells T labels true).1 minSegSize) labels.

Definition removeDust {Point3d : Type} (st : DelaunayGraphCut Point3d)
    (minSegSize : Z) : DelaunayGraphCut Point3d :=
  {| _tetrahedralization := _tetrahedralization st;
     _verticesCoords := _verticesCoords st;
     _verticesAttr := _verticesAttr st;
     _cellIsFull :=
       removeDustLabels (_tetrahedralization st) (_cellIsFull st) minSegSize;
     _neighboringCellsPerVertex := _neighboringCellsPerVertex st |}.

(** ** A small complex: two tetrahedra glued along one face

    Cell 0 has the vertices 0 1 2 3, cell 1 the vertices 1 2 3 4; they share
    the face 1 2 3, which is opposite slot 0 in cell 0 and opposite slot 3 in
    cell 1.  All other faces lie on the boundary. *)

Definition tableEntry (table : list (list Z)) (c k : Z) : Z :=
  if (0 <=? c) && (0 <=? k) then
    default (-1) (table !! Z.to_nat c ≫= fun row => row !! Z.to_nat k)
  else -1.

Definition twoCells : Delaunay :=
  {| nb_cells := 2;
     nb_vertices := 5;
     cell_vertex := tableEntry [[0; 1; 2; 3]; [1; 2; 3; 4]];
     cell_adjacent := tableEntry [[1; -1; -1; -1]; [-1; -1; -1; 0]];
     cell_is_infinite := fun _ => false |}.

(** Cell 0 full, cell 1 empty, vertex 1 a helper point, cache not built. *)
Definition twoCellsCut : DelaunayGraphCut unit :=
  {| _tetrahedralization := twoCells;
     _verticesCoords := [(); (); (); (); ()];
     _verticesAttr :=
       [ {| isHelper := false |}; {| isHelper := true |}; {| isHelper := false |};
         {| isHelper := false |}; {| isHelper := false |} ];
     _cellIsFull := [true; false];
     _neighboringCellsPerVertex := [] |}.

(** ** Two further small complexes *)



(** ** A chain of cells

    Cell [c] is glued to cell [c - 1] across its facet 0 and to cell [c + 1]
    across its facet 1; facets 2 and 3 lie on the boundary. *)
Definition chainCells (n : Z) : Delaunay :=
  {| nb_cells := n;
     nb_vertices := n + 3;
     cell_vertex := fun c k => c + k;
     cell_adjacent := fun c k =>
       if k =? 0 then (if 0 <? c then c - 1 else -1)
       else if k =? 1 then (if c + 1 <? n then c + 1 else -1)
       else -1;
     cell_is_infinite := fun _ => false |}.

(** Fourteen cells in a chain: three full cells, one empty cell, ten full
    cells. *)
Definition chainCut : DelaunayGraphCut unit :=
  {| _tetrahedralization := chainCells 14;
     _verticesCoords := [];
     _verticesAttr := [];
     _cellIsFull := [true; true; true; false] ++ replicate 10 true;
     _neighboringCellsPerVertex := [] |}.

(** ** Well-formedness of facets and of the backend *)

(** A facet of the complex: a cell of the triangulation (never the sentinel)
    and one of its four local slots. *)
Definition validFacet (T : Delaunay) (f : Facet) : Prop :=
  0 <= cellIndex f < nb_cells T
  /\ cellIndex f <> NO_CELL
  /\ 0 <= localVertexIndex f < 4.

(** The mirror of a facet is defined when there is a cell across the facet
    and the search for its opposite slot succeeded. *)
Definition mirrorDefined (m : Facet) : Prop :=
  cellIndex m <> NO_CELL /\ localVertexIndex m <> NO_VERTEX.

(** [cell_adjacent] is symmetric: when facet [i] of cell [c] leads to a cell
    [c'], some facet [j] of [c'] leads back to [c], and it is the same face
    (the two facets have the same vertices). *)
Definition adjacencySymmetric (T : Delaunay) : Prop :=
  forall c i,
    0 <= c < nb_cells T -> 0 <= i < 4 ->
    let c' := to_index (cell_adjacent T c i) in
    c' <> NO_CELL ->
    exists j,
      0 <= j < 4
      /\ to_index (cell_adjacent T c' j) = c
      /\ forall x,
           x ∈ facetVertices T {| cellIndex := c'; localVertexIndex := j |}
           <-> x ∈ facetVertices T {| cellIndex := c; localVertexIndex := i |}.


(** Every non-infinite cell has four distinct vertex references. *)
Definition finiteCellsDistinct (T : Delaunay) : Prop :=
  forall c,
    0 <= c < nb_cells T -> isInfiniteCell T c = false ->
    NoDup (cellVertices T c).

(** A slot of a cell holds a vertex that no facet vertex equals. *)
Definition absentFrom (T : Delaunay) (ci : Z) (fv : list Z) (k : Z) : Prop :=
  to_index (cell_vertex T ci k) ∉ fv.

(** A vertex index the cache is built for: the test of
    [updateVertexToCellsCache], negated. *)
Definition cachedVertex {Point3d : Type} (st : DelaunayGraphCut Point3d)
    (vi : Z) : Prop :=
  vi <> NO_VERTEX /\ 0 <= vi < Z.of_nat (length (_verticesCoords st)).

(** Cell [ci] has vertex [vi] in one of its four slots. *)
Definition cellHasVertex (T : Delaunay) (ci vi : Z) : Prop :=
  exists k, 0 <= k < 4 /\ to_index (cell_vertex T ci k) = vi.

(** Cell [ci] is recorded under vertex [vi] in the temporary map. *)
Definition recorded (tmp : gmap Z (gset Z)) (vi ci : Z) : Prop :=
  ci ∈ default (∅ : gset Z) (tmp !! vi).

(** Slot [k] of cell [ci] holds the vertex [vi], and [vi] passes the test
    of the loop of [updateVertexToCellsCache]. *)
Definition slotHolds {Point3d : Type} (st : DelaunayGraphCut Point3d)
    (ci k vi : Z) : Prop :=
  to_index (cell_vertex (_tetrahedralization st) ci k) = vi
  /\ vi <> NO_VERTEX /\ vi < Z.of_nat (length (_verticesCoords st)).

(** The keys of the temporary map are positions of [_verticesCoords]. *)
Definition keysInRange {Point3d : Type} (st : DelaunayGraphCut Point3d)
    (tmp : gmap Z (gset Z)) : Prop :=
  forall vi, is_Some (tmp !! vi) -> 0 <= vi < Z.of_nat (length (_verticesCoords st)).

(** ** Notions used to reason about the repair step *)

(** The cells that carry a label. *)
Definition labelledCells (labels : list bool) : gset Z :=
  list_to_set (seqZ 0 (Z.of_nat (length labels))).

(** Every component id in use is below the next id to hand out. *)
Definition colorsBelow (acc : gmap Z nat * nat) : Prop :=
  forall x col, acc.1 !! x = Some col -> (col < acc.2)%nat.

(** Cell [x] is dust: a full cell whose component has fewer than
    [minSegSize] cells. *)
Definition isDust (colors : gmap Z nat) (labels : list bool) (minSegSize : Z)
    (x : Z) : Prop :=
  cellLabel labels x = Some true
  /\ exists col, colors !! x = Some col
       /\ Z.of_nat (size (componentCells colors col)) < minSegSize.

(** [colors'] colours exactly the cells of [colors] that are not [removed],
    and groups them into the same components. *)
Definition sameSegments (removed : Z -> Prop) (colors colors' : gmap Z nat)
    : Prop :=
  (forall x, is_Some (colors' !! x) <-> is_Some (colors !! x) /\ ~ removed x)
  /\ (forall x y, is_Some (colors' !! x) ->
                  (colors' !! y = colors' !! x <-> colors !! y = colors !! x)).

(** The colouring [acc'] keeps every component id of [acc] and gives the
    cells it colours in addition ids that [acc] had not handed out. *)
Definition segmentsExtend (acc acc' : gmap Z nat * nat) : Prop :=
  (acc.2 <= acc'.2)%nat
  /\ (forall x col, acc.1 !! x = Some col -> acc'.1 !! x = Some col)
  /\ (forall x col, acc'.1 !! x = Some col ->
                    acc.1 !! x = Some col \/ (acc.2 <= col)%nat).

(** ** Further inline functions of the graph-cut object *)

(** Converting an [index_t] to [signed_index_t] wraps into the signed 32-bit
    range. *)
Definition to_signed_index (z : Z) : Z :=
  let r := z mod index_modulus in
  if r <? 2 ^ 31 then r else r - index_modulus.

(** [getFacetsPoints]: the points of the three vertices of a facet, in facet
    order.  The subscripts are unchecked; [None] stands for the undefined
    behaviour of a subscript outside [_verticesCoords]. *)
Definition getFacetsPoints {Point3d : Type} (st : DelaunayGraphCut Point3d)
    (f : Facet) : option (list Point3d) :=
  let T := _tetrahedralization st in
  match lookupZ (_verticesCoords st) (getVertexIndex T f 0),
        lookupZ (_verticesCoords st) (getVertexIndex T f 1),
        lookupZ (_verticesCoords st) (getVertexIndex T f 2) with
  | Some a, Some b, Some c => Some [a; b; c]
  | _, _, _ => None
  end.

Definition getNbVertices {Point3d : Type} (st : DelaunayGraphCut Point3d) : Z :=
  Z.of_nat (length (_verticesAttr st)).

(** [nearestVertexInCell].  Distances are doubles computed by
    [GEO::Geom::distance2]; the distance function, the largest double and the
    comparison [<] on doubles are parameters, so that what is proved holds
    whatever they compute.  The subscript into [_verticesCoords] is unchecked:
    [None] stands for its undefined behaviour outside the vector. *)
Section NearestVertex.
Context {Point3d : Type} {double : Type}.
Variable distance2 : Point3d -> Point3d -> double.
Variable double_max : double.
Variable double_lt : double -> double -> bool.

(** One turn of the loop; the state is [(result, d)]. *)
Definition nearestVertexStep (st : DelaunayGraphCut Point3d) (cellIndex : Z)
    (p : Point3d) (acc : option (Z * double)) (i : Z) : option (Z * double) :=
  match acc with
  | None => None
  | Some (result, d) =>
      let currentVertex := cell_vertex (_tetrahedralization st) cellIndex i in
      if currentVertex <? 0 then Some (result, d)
      else
        match lookupZ (_verticesCoords st) currentVertex with
        | None => None
        | Some q =>
            let currentDist := distance2 q p in
            if double_lt currentDist d then Some (currentVertex, currentDist)
            else Some (result, d)
        end
  end.

Definition nearestVertexInCell (st : DelaunayGraphCut Point3d) (cellIndex : Z)
    (p : Point3d) : option Z :=
  match fold_left (nearestVertexStep st cellIndex p) [0; 1; 2; 3]
                  (Some (to_signed_index NO_CELL, double_max)) with
  | Some (result, _) => Some (to_index result)
  | None => None
  end.

End NearestVertex.

(** Slot [i] of a cell holds a vertex that is not at infinity. *)
Definition slotIsFinite {Point3d : Type} (st : DelaunayGraphCut Point3d)
    (cellIndex i : Z) : Prop :=
  0 <= cell_vertex (_tetrahedralization st) cellIndex i.

(** The vertex in slot [i] of a cell is a position of [_verticesCoords]. *)
Definition slotIsReadable {Point3d : Type} (st : DelaunayGraphCut Point3d)
    (cellIndex i : Z) : Prop :=
  is_Some (lookupZ (_verticesCoords st)
                   (cell_vertex (_tetrahedralization st) cellIndex i)).

(** The cells stored in a cache entry are listed in strictly increasing
    order. *)
Definition increasing (cells : list Z) : Prop := StronglySorted Z.lt cells.

(** ** sfmDataIO/viewIO.hpp: the view id method *)

(** [std::out_of_range] with its message, as [what()] returns it. *)
Inductive thrown : Type :=
| std_out_of_range (what : string).

Inductive outcome (A : Type) : Type :=
| Returned (a : A)
| Thrown (e : thrown).

Arguments Returned {A} _.
Arguments Thrown {A} _.

(** The C string of a [std::string]: its characters up to the first NUL. *)
Fixpoint c_str (s : string) : string :=
  match s with
  | EmptyString => EmptyString
  | String c s' => if Ascii.eqb c Ascii.zero then EmptyString else String c (c_str s')
  end.

(** [std::out_of_range(what_arg)] for a [std::string] argument: [what()]
    is a C string equal to [what_arg.c_str()], so it ends at the first NUL
    of the argument. *)
Definition out_of_range_what (what_arg : string) : thrown :=
  std_out_of_range (c_str what_arg).

(** [enum class EViewIdMethod], as its underlying [int]: an object of the
    enumeration can hold values other than the two enumerators. *)
Definition METADATA : Z := 0.
Definition FILENAME : Z := 1.

(** [std::to_string(int)]: the decimal digits, with a leading minus sign for
    a negative number. *)
Definition to_string (n : Z) : string := pretty n.

Definition EViewIdMethod_enumToString (viewIdMethod : Z) : outcome string :=
  if viewIdMethod =? METADATA then Returned "metadata"
  else if viewIdMethod =? FILENAME then Returned "filename"
  else Thrown (out_of_range_what
                 ("Invalid ViewIdMethod type Enum: " +:+ to_string viewIdMethod)).

Definition EViewIdMethod_stringToEnum (viewIdMethod : string) : outcome Z :=
  if String.eqb viewIdMethod "metadata" then Returned METADATA
  else if String.eqb viewIdMethod "filename" then Returned FILENAME
  else Thrown (out_of_range_what
                 ("Invalid ViewIdMethod type string " +:+ viewIdMethod)).

(** An output stream in its default formatting state, as the text written to
    it so far.  [operator<<] writes the name, unless the conversion throws. *)
Definition writeEViewIdMethod (os : string) (s : Z) : outcome string :=
  match EViewIdMethod_enumToString s with
  | Returned name => Returned (os +:+ name)
  | Thrown e => Thrown e
  end.

(** An input stream in its default formatting state ([skipws] set, no field
    width, classic locale): the characters still to be read and two of the
    state bits. *)
Record istream : Type := {
  unread : string;
  eofbit : bool;
  failbit : bool
}.

Definition good (input : istream) : bool :=
  negb (eofbit input) && negb (failbit input).

Fixpoint skipWhitespace (s : string) : string :=
  match s with
  | EmptyString => EmptyString
  | String c s' => if Ascii.is_space c then skipWhitespace s' else s
  end.

(** The characters up to the next whitespace or the end, and what follows. *)
Fixpoint takeToken (s : string) : string * string :=
  match s with
  | EmptyString => (EmptyString, EmptyString)
  | String c s' =>
      if Ascii.is_space c then (EmptyString, s)
      else (String c (takeToken s').1, (takeToken s').2)
  end.

(** [in >> token] for a [std::string]: a stream that is not good, or holds
    nothing but whitespace, fails and leaves [token] as it was; otherwise
    the next word replaces [token], and [eofbit] is set when the word ran up
    to the end. *)
Definition extractToken (input : istream) (token : string) : istream * string :=
  if good input then
    match skipWhitespace (unread input) with
    | EmptyString =>
        ({| unread := EmptyString; eofbit := true; failbit := true |}, token)
    | String c s' =>
        let word := takeToken (String c s') in
        ({| unread := word.2;
            eofbit := bool_decide (word.2 = EmptyString);
            failbit := false |}, word.1)
    end
  else
    ({| unread := unread input; eofbit := eofbit input; failbit := true |}, token).

(** [operator>>]: reads a word into an empty [token] and converts it; the
    stream is advanced even when the conversion throws. *)
Definition readEViewIdMethod (input : istream) : istream * outcome Z :=
  let extracted := extractToken input EmptyString in
  (extracted.1, EViewIdMethod_stringToEnum extracted.2).

(** A stream ready to be read from its first character. *)
Definition istringstream (text : string) : istream :=
  {| unread := text; eofbit := false; failbit := false |}.

(** Every character of a string is whitespace. *)
Fixpoint allWhitespace (s : string) : bool :=
  match s with
  | EmptyString => true
  | String c s' => Ascii.is_space c && allWhitespace s'
  end.

(** A string is empty or starts with whitespace. *)
Definition endsToken (s : string) : bool :=
  match s with
  | EmptyString => true
  | String c _ => Ascii.is_space c
  end.

(** * Proofs *)

(** ** Integers and lookups *)

Lemma to_index_small (z : Z) : 0 <= z < index_modulus -> to_index z = z.
Proof. intros H. unfold to_index. apply Z.mod_small. exact H. Qed.

Lemma to_index_range (z : Z) : 0 <= to_index z < index_modulus.
Proof. unfold to_index. apply Z.mod_pos_bound. reflexivity. Qed.

Lemma slot_is_index (k : Z) : 0 <= k < 4 -> to_index k = k.
Proof. intros H. apply to_index_small. unfold index_modulus. lia. Qed.

Lemma NO_CELL_value : NO_CELL = 4294967295.
Proof. reflexivity. Qed.

Lemma NO_VERTEX_value : NO_VERTEX = 4294967295.
Proof. reflexivity. Qed.

Lemma lookupZ_neg {A : Type} (l : list A) (pos : Z) :
  pos < 0 -> lookupZ l pos = None.
Proof.
  revert pos. induction l as [|a l IH]; intros pos Hpos; simpl; [reflexivity|].
  destruct (Z.eqb_spec pos 0) as [->|_]; [lia|]. apply IH. lia.
Qed.

Lemma lookupZ_nat {A : Type} (l : list A) (pos : Z) :
  0 <= pos -> lookupZ l pos = l !! Z.to_nat pos.
Proof.
  revert pos. induction l as [|a l IH]; intros pos Hpos; simpl.
  - reflexivity.
  - destruct (Z.eqb_spec pos 0) as [->|Hne]; [reflexivity|].
    rewrite IH by lia.
    replace (Z.to_nat pos) with (S (Z.to_nat (pos - 1))) by lia.
    reflexivity.
Qed.

Lemma lookupZ_Some {A : Type} (l : list A) (pos : Z) (a : A) :
  lookupZ l pos = Some a <-> 0 <= pos /\ l !! Z.to_nat pos = Some a.
Proof.
  destruct (Z_lt_le_dec pos 0) as [Hneg|Hpos].
  - rewrite lookupZ_neg by exact Hneg. split; [discriminate|]. intros [? _]. lia.
  - rewrite lookupZ_nat by exact Hpos. tauto.
Qed.

Lemma lookupZ_None {A : Type} (l : list A) (pos : Z) :
  lookupZ l pos = None <-> pos < 0 \/ Z.of_nat (length l) <= pos.
Proof.
  destruct (Z_lt_le_dec pos 0) as [Hneg|Hpos].
  - rewrite lookupZ_neg by exact Hneg. split; [intros _; left; exact Hneg | reflexivity].
  - rewrite lookupZ_nat by exact Hpos. rewrite lookup_ge_None. lia.
Qed.

(** ** Facets and their slots *)

Lemma found_spec (x : Z) (vs : list Z) : found x vs = true <-> x ∈ vs.
Proof.
  unfold found. rewrite existsb_exists. split.
  - intros [y [Hin Heq]]. apply Z.eqb_eq in Heq. subst y.
    apply list_elem_of_In. exact Hin.
  - intros Hin. exists x. split; [apply list_elem_of_In; exact Hin | apply Z.eqb_refl].
Qed.

Lemma slot_cases (k : Z) : 0 <= k < 4 -> k = 0 \/ k = 1 \/ k = 2 \/ k = 3.
Proof. lia. Qed.

Ltac each_slot H :=
  apply slot_cases in H; destruct H as [-> | [-> | [-> | ->]]].

(** Evaluates the local slots of a facet whose opposite slot is known. *)
Ltac eval_slots :=
  unfold localSlot; cbn [localVertexIndex];
  repeat match goal with
    | |- context [to_index (to_index (?a + to_index ?b) + 1) mod 4] =>
        let r := eval vm_compute in (to_index (to_index (a + to_index b) + 1) mod 4) in
        change (to_index (to_index (a + to_index b) + 1) mod 4) with r
    end.

Lemma other_slot_in_facet (T : Delaunay) (c i k : Z) :
  0 <= i < 4 -> 0 <= k < 4 -> k <> i ->
  to_index (cell_vertex T c k)
    ∈ facetVertices T {| cellIndex := c; localVertexIndex := i |}.
Proof.
  intros Hi Hk Hne. unfold facetVertices, getVertexIndex. simpl.
  each_slot Hi; each_slot Hk; try congruence;
    eval_slots;
    rewrite !elem_of_cons; tauto.
Qed.


(** C5: for a facet whose opposite slot is 0, 1, 2 or 3, the opposite slot
    and the three slots read by [getVertexIndex] for [i] = 0, 1, 2 are
    pairwise distinct and are exactly the four slots of the cell; so the
    opposite vertex followed by the three facet vertices is a rearrangement
    of the four vertex references of the cell. *)
Theorem facet_slots_cover_cell (T : Delaunay) (f : Facet) :
  0 <= localVertexIndex f < 4 ->
  let slots := [localVertexIndex f; localSlot f 0; localSlot f 1; localSlot f 2] in
  NoDup slots
  /\ (forall s, s ∈ slots <-> 0 <= s < 4)
  /\ Permutation (getOppositeVertexIndex T f :: facetVertices T f)
                 (cellVertices T (cellIndex f)).
Proof.
  destruct f as [c l]. simpl. intros Hl.
  unfold getOppositeVertexIndex, facetVertices, getVertexIndex, cellVertices.
  simpl.
  each_slot Hl; eval_slots; (split; [|split]).
  all: try (rewrite !NoDup_cons, !not_elem_of_cons;
            repeat split; try discriminate; auto using not_elem_of_nil, NoDup_nil_2).
  all: try (intros s; rewrite !elem_of_cons, elem_of_nil; lia).
  - reflexivity.
  - apply (Permutation_app_comm [_; _; _] [_]).
  - apply (Permutation_app_comm [_; _] [_; _]).
  - apply (Permutation_app_comm [_] [_; _; _]).
Qed.

Lemma facet_slots_cover_cell_witness :
  let f := {| cellIndex := 1; localVertexIndex := 2 |} in
  NoDup [2; localSlot f 0; localSlot f 1; localSlot f 2]
  /\ (forall s, s ∈ [2; localSlot f 0; localSlot f 1; localSlot f 2] <-> 0 <= s < 4)
  /\ Permutation (getOppositeVertexIndex twoCells f :: facetVertices twoCells f)
                 (cellVertices twoCells 1).
Proof.
  apply (facet_slots_cover_cell twoCells {| cellIndex := 1; localVertexIndex := 2 |}).
  simpl. lia.
Defined.

(** ** Facet mirroring *)

Lemma searchAbsentVertex_Some (T : Delaunay) (ci : Z) (fv ks : list Z) (k : Z) :
  searchAbsentVertex T ci fv ks = Some k -> k ∈ ks /\ absentFrom T ci fv k.
Proof.
  induction ks as [|k0 ks IH]; simpl; [discriminate|].
  destruct (found (to_index (cell_vertex T ci k0)) fv) eqn:Hf; simpl.
  - intros H. destruct (IH H) as [Hin Habs]. split; [right; exact Hin | exact Habs].
  - intros [= <-]. split; [left|].
    unfold absentFrom. rewrite <- found_spec, Hf. discriminate.
Qed.

Lemma searchAbsentVertex_unique (T : Delaunay) (ci : Z) (fv ks : list Z) (k : Z) :
  k ∈ ks -> absentFrom T ci fv k ->
  (forall k', k' ∈ ks -> absentFrom T ci fv k' -> k' = k) ->
  searchAbsentVertex T ci fv ks = Some k.
Proof.
  induction ks as [|k0 ks IH]; intros Hin Habs Huniq.
  - inversion Hin.
  - simpl. destruct (found (to_index (cell_vertex T ci k0)) fv) eqn:Hf; simpl.
    + assert (Hne : k <> k0).
      { intros ->. apply Habs. apply found_spec. exact Hf. }
      apply IH; [| exact Habs |].
      * apply elem_of_cons in Hin. destruct Hin; [contradiction | assumption].
      * intros k' Hk' Hk'abs. apply Huniq; [right; exact Hk' | exact Hk'abs].
    + f_equal. apply Huniq; [left|].
      unfold absentFrom. rewrite <- found_spec, Hf. discriminate.
Qed.

Lemma slot_elem_of (k : Z) : k ∈ [0; 1; 2; 3] <-> 0 <= k < 4.
Proof. rewrite !elem_of_cons, elem_of_nil. lia. Qed.

Lemma mirrorFacet_cell (T : Delaunay) (f : Facet) :
  cellIndex (mirrorFacet T f)
  = to_index (cell_adjacent T (cellIndex f) (localVertexIndex f)).
Proof.
  unfold mirrorFacet.
  destruct (_ =? NO_CELL); [reflexivity|].
  destruct (searchAbsentVertex _ _ _ _); reflexivity.
Qed.

Lemma mirrorFacet_boundary (T : Delaunay) (f : Facet) :
  to_index (cell_adjacent T (cellIndex f) (localVertexIndex f)) = NO_CELL ->
  mirrorFacet T f = defaultFacet.
Proof.
  intros H. unfold mirrorFacet. rewrite H, Z.eqb_refl. reflexivity.
Qed.

Lemma mirrorFacet_unique_absent (T : Delaunay) (f : Facet) (k : Z) :
  let adjacent := to_index (cell_adjacent T (cellIndex f) (localVertexIndex f)) in
  adjacent <> NO_CELL ->
  0 <= k < 4 ->
  absentFrom T adjacent (facetVertices T f) k ->
  (forall k', 0 <= k' < 4 -> absentFrom T adjacent (facetVertices T f) k' -> k' = k) ->
  mirrorFacet T f = {| cellIndex := adjacent; localVertexIndex := k |}.
Proof.
  intros adjacent Hadj Hk Habs Huniq. unfold mirrorFacet. fold adjacent.
  destruct (Z.eqb_spec adjacent NO_CELL) as [|_]; [contradiction|].
  rewrite (searchAbsentVertex_unique T adjacent (facetVertices T f) [0; 1; 2; 3] k).
  - rewrite slot_is_index by exact Hk. reflexivity.
  - apply slot_elem_of. exact Hk.
  - exact Habs.
  - intros k' Hk'. apply Huniq. apply slot_elem_of. exact Hk'.
Qed.

Lemma mirrorFacet_defined_inv (T : Delaunay) (f : Facet) :
  mirrorDefined (mirrorFacet T f) ->
  let adjacent := to_index (cell_adjacent T (cellIndex f) (localVertexIndex f)) in
  adjacent <> NO_CELL
  /\ exists k, 0 <= k < 4
       /\ absentFrom T adjacent (facetVertices T f) k
       /\ mirrorFacet T f = {| cellIndex := adjacent; localVertexIndex := k |}.
Proof.
  intros [Hc Hl] adjacent. rewrite mirrorFacet_cell in Hc. fold adjacent in Hc.
  split; [exact Hc|].
  revert Hl. unfold mirrorFacet. fold adjacent.
  destruct (Z.eqb_spec adjacent NO_CELL) as [|_]; [contradiction|].
  destruct (searchAbsentVertex T adjacent (facetVertices T f) [0; 1; 2; 3])
    as [k|] eqn:Hs; simpl; [|congruence].
  intros _. apply searchAbsentVertex_Some in Hs. destruct Hs as [Hin Habs].
  apply slot_elem_of in Hin.
  exists k. rewrite slot_is_index by exact Hin. auto.
Qed.

(** C3: when there is a cell across facet [f], and [k] is the one slot of
    that cell whose vertex is none of the three vertices of [f], then
    [mirrorFacet f] is the facet of that cell with opposite slot [k]; when
    there is no cell across [f], [mirrorFacet f] is the default facet, whose
    cell index is [NO_CELL]. *)
Theorem mirrorFacet_spec (T : Delaunay) (f : Facet) :
  let adjacent := to_index (cell_adjacent T (cellIndex f) (localVertexIndex f)) in
  (forall k,
     adjacent <> NO_CELL ->
     0 <= k < 4 ->
     absentFrom T adjacent (facetVertices T f) k ->
     (forall k', 0 <= k' < 4 ->
                 absentFrom T adjacent (facetVertices T f) k' -> k' = k) ->
     mirrorFacet T f = {| cellIndex := adjacent; localVertexIndex := k |})
  /\ (adjacent = NO_CELL ->
      mirrorFacet T f = defaultFacet /\ cellIndex (mirrorFacet T f) = NO_CELL).
Proof.
  intros adjacent. split.
  - intros k Hadj Hk Habs Huniq. apply mirrorFacet_unique_absent; assumption.
  - intros Hadj. rewrite (mirrorFacet_boundary T f Hadj). split; reflexivity.
Qed.



(** The two glued tetrahedra form a well-formed complex. *)
Lemma twoCells_symmetric : adjacencySymmetric twoCells.
Proof.
  intros c i Hc Hi c' Hne. subst c'.
  assert (Hc' : c = 0 \/ c = 1) by (simpl in Hc; lia).
  destruct Hc' as [-> | ->]; each_slot Hi;
    try (exfalso; apply Hne; reflexivity).
  - exists 3. split; [lia|]. split; [reflexivity|]. intros x.
    change (facetVertices twoCells
              {| cellIndex := to_index (cell_adjacent twoCells 0 0);
                 localVertexIndex := 3 |}) with [1; 2; 3].
    change (facetVertices twoCells {| cellIndex := 0; localVertexIndex := 0 |})
      with [1; 2; 3].
    reflexivity.
  - exists 0. split; [lia|]. split; [reflexivity|]. intros x.
    change (facetVertices twoCells
              {| cellIndex := to_index (cell_adjacent twoCells 1 3);
                 localVertexIndex := 0 |}) with [1; 2; 3].
    change (facetVertices twoCells {| cellIndex := 1; localVertexIndex := 3 |})
      with [1; 2; 3].
    reflexivity.
Qed.

Lemma twoCells_distinct : finiteCellsDistinct twoCells.
Proof.
  intros c Hc _.
  assert (Hc' : c = 0 \/ c = 1) by (simpl in Hc; lia).
  destruct Hc' as [-> | ->].
  - change (cellVertices twoCells 0) with [0; 1; 2; 3].
    apply (bool_decide_unpack _). vm_compute. exact I.
  - change (cellVertices twoCells 1) with [1; 2; 3; 4].
    apply (bool_decide_unpack _). vm_compute. exact I.
Qed.

Lemma mirrorFacet_spec_witness :
  mirrorFacet twoCells {| cellIndex := 0; localVertexIndex := 0 |}
  = {| cellIndex := 1; localVertexIndex := 3 |}
  /\ mirrorFacet twoCells {| cellIndex := 0; localVertexIndex := 1 |} = defaultFacet.
Proof.
  split.
  - apply (proj1 (mirrorFacet_spec twoCells
                    {| cellIndex := 0; localVertexIndex := 0 |}) 3).
    + vm_compute. discriminate.
    + lia.
    + unfold absentFrom. vm_compute. intros H.
      repeat (apply elem_of_cons in H; destruct H as [H|H]; [discriminate H|]).
      inversion H.
    + intros k' Hk' Habs. each_slot Hk'; try reflexivity; exfalso; apply Habs;
        apply found_spec; reflexivity.
  - apply (proj2 (mirrorFacet_spec twoCells
                    {| cellIndex := 0; localVertexIndex := 1 |})).
    reflexivity.
Defined.



(** ** Queries on the vertex-to-cells cache *)

Lemma vector_at_Ok {A : Type} (l : list A) (pos : Z) (a : A) :
  0 <= pos -> l !! Z.to_nat pos = Some a -> vector_at l pos = Ok a.
Proof.
  intros Hpos Hl. unfold vector_at.
  rewrite (proj2 (lookupZ_Some l pos a)); [reflexivity | split; assumption].
Qed.

Lemma vector_at_Throw {A : Type} (l : list A) (pos : Z) :
  ~ (0 <= pos < Z.of_nat (length l)) -> vector_at l pos = Throw out_of_range.
Proof.
  intros Hpos. unfold vector_at.
  rewrite (proj2 (lookupZ_None l pos)); [reflexivity | lia].
Qed.

Lemma to_size_small (z : Z) : 0 <= z < size_modulus -> to_size z = z.
Proof. intros H. unfold to_size. apply Z.mod_small. exact H. Qed.

Lemma to_size_negative (z : Z) :
  - size_modulus <= z < 0 -> to_size z = z + size_modulus.
Proof.
  intros H. unfold to_size.
  symmetry. apply (Z.mod_unique_pos z size_modulus (-1)); lia.
Qed.

(** C4: a neighbour query made while the cache is still empty (never built),
    or with a vertex index outside the bounds of the cache, throws
    [std::out_of_range]; in particular it does not return an empty list. *)
Theorem getNeighboringCells_fails_loudly {Point3d : Type}
    (st : DelaunayGraphCut Point3d) (vi : Z) :
  _neighboringCellsPerVertex st = []
  \/ ~ (0 <= vi < Z.of_nat (length (_neighboringCellsPerVertex st))) ->
  getNeighboringCellsByVertexIndex st vi = Throw out_of_range
  /\ getNeighboringCellsByVertexIndex st vi <> Ok [].
Proof.
  intros H.
  assert (Hthrow : getNeighboringCellsByVertexIndex st vi = Throw out_of_range).
  { unfold getNeighboringCellsByVertexIndex. apply vector_at_Throw.
    destruct H as [Hempty | Hout]; [|exact Hout].
    rewrite Hempty. simpl. lia. }
  rewrite Hthrow. split; [reflexivity | discriminate].
Qed.

Lemma getNeighboringCells_fails_loudly_witness :
  getNeighboringCellsByVertexIndex twoCellsCut 0 = Throw out_of_range
  /\ getNeighboringCellsByVertexIndex twoCellsCut 0 <> Ok [].
Proof.
  apply (getNeighboringCells_fails_loudly twoCellsCut 0).
  left. reflexivity.
Defined.

(** C10: for a vertex [vi] that has an entry [localCells] in the cache and
    an [int] position [lvi], [vertexToCells] returns [NO_CELL] when [lvi] is
    not a position of [localCells] (too large, or negative and so huge once
    converted to [size_t]), and the cell stored at position [lvi] otherwise;
    it never throws.  Lengths are assumed to fit a signed 64-bit integer, as
    every [std::vector] size does. *)
Theorem vertexToCells_spec {Point3d : Type} (st : DelaunayGraphCut Point3d)
    (vi lvi : Z) (localCells : list Z) :
  0 <= vi ->
  _neighboringCellsPerVertex st !! Z.to_nat vi = Some localCells ->
  int_range lvi ->
  Z.of_nat (length localCells) < 2 ^ 63 ->
  (~ (0 <= lvi < Z.of_nat (length localCells)) ->
     vertexToCells st vi lvi = Ok NO_CELL)
  /\ (0 <= lvi < Z.of_nat (length localCells) ->
      exists ci, localCells !! Z.to_nat lvi = Some ci
                 /\ vertexToCells st vi lvi = Ok ci).
Proof.
  intros Hvi Hentry Hint Hlen. unfold int_range in Hint.
  unfold vertexToCells. rewrite (vector_at_Ok _ vi localCells Hvi Hentry).
  split.
  - intros Hout.
    destruct (Z_lt_le_dec lvi 0) as [Hneg | Hpos].
    + rewrite to_size_negative by (unfold size_modulus; lia).
      destruct (Z.geb_spec (lvi + size_modulus) (Z.of_nat (length localCells)))
        as [_ | Hlt]; [reflexivity|].
      unfold size_modulus in Hlt. lia.
    + rewrite to_size_small by (unfold size_modulus; lia).
      destruct (Z.geb_spec lvi (Z.of_nat (length localCells))) as [_ | Hlt];
        [reflexivity | lia].
  - intros Hin. rewrite to_size_small by (unfold size_modulus; lia).
    destruct (Z.geb_spec lvi (Z.of_nat (length localCells))) as [Hge | _]; [lia|].
    destruct (lookup_lt_is_Some_2 localCells (Z.to_nat lvi)) as [ci Hci]; [lia|].
    exists ci. split; [exact Hci|].
    rewrite (proj2 (lookupZ_Some localCells lvi ci)); [reflexivity|].
    split; [lia | exact Hci].
Qed.

Lemma vertexToCells_spec_witness :
  vertexToCells (updateVertexToCellsCache twoCellsCut) 1 (-1) = Ok NO_CELL
  /\ exists ci, [0; 1] !! Z.to_nat 1 = Some ci
                /\ vertexToCells (updateVertexToCellsCache twoCellsCut) 1 1 = Ok ci.
Proof.
  split.
  - apply (proj1 (vertexToCells_spec (updateVertexToCellsCache twoCellsCut)
                    1 (-1) [0; 1] ltac:(lia) eq_refl
                    ltac:(unfold int_range; lia) ltac:(simpl; lia))).
    simpl. lia.
  - apply (proj2 (vertexToCells_spec (updateVertexToCellsCache twoCellsCut)
                    1 1 [0; 1] ltac:(lia) eq_refl
                    ltac:(unfold int_range; lia) ltac:(simpl; lia))).
    simpl. lia.
Defined.

(** ** Building the vertex-to-cells cache *)

Section Cache.
Context {Point3d : Type} (st : DelaunayGraphCut Point3d).

Let T := _tetrahedralization st.
Let nbVertices := Z.of_nat (length (_verticesCoords st)).

Lemma recorded_insertNeighbor tmp vi ci vi' ci' :
  recorded (insertNeighbor tmp vi ci) vi' ci'
  <-> (vi' = vi /\ ci' = ci) \/ recorded tmp vi' ci'.
Proof.
  unfold recorded, insertNeighbor.
  destruct (decide (vi = vi')) as [<- | Hne].
  - rewrite lookup_insert_eq. simpl. rewrite elem_of_union, elem_of_singleton.
    tauto.
  - rewrite lookup_insert_ne by exact Hne. split; [tauto|].
    intros [[Heq _] | H]; [congruence | exact H].
Qed.

Lemma recorded_visitSlot ci acc k vi' ci' :
  recorded (visitSlot st ci acc k).1 vi' ci'
  <-> recorded acc.1 vi' ci' \/ (ci' = ci /\ slotHolds st ci k vi').
Proof.
  unfold visitSlot, slotHolds. fold T nbVertices.
  destruct (Z.eqb_spec (to_index (cell_vertex T ci k)) NO_VERTEX) as [Hno | Hno];
    simpl.
  - split; [tauto|]. intros [H | (_ & Heq & Hne & _)]; [exact H | congruence].
  - destruct (Z.geb_spec (to_index (cell_vertex T ci k)) nbVertices) as [Hge | Hlt];
      simpl.
    + split; [tauto|]. intros [H | (_ & Heq & _ & Hlt)]; [exact H | lia].
    + rewrite recorded_insertNeighbor. split.
      * intros [[-> ->] | H]; [right | left; exact H]. repeat split; auto.
      * intros [H | (-> & <- & _)]; [right; exact H | left; auto].
Qed.

Lemma keysInRange_visitSlot ci acc k :
  keysInRange st acc.1 -> keysInRange st (visitSlot st ci acc k).1.
Proof.
  intros Hacc. unfold visitSlot, keysInRange in *. fold T. fold nbVertices. fold nbVertices in Hacc.
  destruct (Z.eqb_spec (to_index (cell_vertex T ci k)) NO_VERTEX) as [Hno | Hno];
    simpl; [exact Hacc|].
  destruct (Z.geb_spec (to_index (cell_vertex T ci k)) nbVertices) as [Hge | Hlt];
    simpl; [exact Hacc|].
  intros vi. unfold insertNeighbor.
  destruct (decide (to_index (cell_vertex T ci k) = vi)) as [<- | Hne].
  - intros _. pose proof (to_index_range (cell_vertex T ci k)). lia.
  - rewrite lookup_insert_ne by exact Hne. apply Hacc.
Qed.

Lemma recorded_visitSlots ci ks acc vi' ci' :
  recorded (fold_left (visitSlot st ci) ks acc).1 vi' ci'
  <-> recorded acc.1 vi' ci'
      \/ (ci' = ci /\ exists k, k ∈ ks /\ slotHolds st ci k vi').
Proof.
  revert acc. induction ks as [|k ks IH]; intros acc; simpl.
  - split; [tauto|]. intros [H | (_ & k & Hk & _)]; [exact H | inversion Hk].
  - rewrite IH, recorded_visitSlot. split.
    + intros [[H | (-> & Hs)] | (-> & k' & Hk' & Hs)]; [tauto | right | right];
        (split; [reflexivity|]).
      * exists k. split; [left | exact Hs].
      * exists k'. split; [right; exact Hk' | exact Hs].
    + intros [H | (-> & k' & Hk' & Hs)]; [tauto|].
      apply elem_of_cons in Hk'. destruct Hk' as [-> | Hk'].
      * left. right. auto.
      * right. split; [reflexivity|]. exists k'. auto.
Qed.

Lemma keysInRange_visitSlots ci ks acc :
  keysInRange st acc.1 -> keysInRange st (fold_left (visitSlot st ci) ks acc).1.
Proof.
  revert acc. induction ks as [|k ks IH]; intros acc Hacc; simpl; [exact Hacc|].
  apply IH. apply keysInRange_visitSlot. exact Hacc.
Qed.

Lemma recorded_visitCells cs acc vi' ci' :
  recorded (fold_left (visitCell st) cs acc).1 vi' ci'
  <-> recorded acc.1 vi' ci'
      \/ (ci' ∈ cs /\ exists k, 0 <= k < 4 /\ slotHolds st ci' k vi').
Proof.
  revert acc. induction cs as [|c cs IH]; intros acc; simpl.
  - split; [tauto|]. intros [H | (Hin & _)]; [exact H | inversion Hin].
  - rewrite IH. unfold visitCell. rewrite recorded_visitSlots.
    setoid_rewrite slot_elem_of. rewrite elem_of_cons. split.
    + intros [[H | (-> & Hk)] | (Hin & Hk)]; tauto.
    + intros [H | ([-> | Hin] & Hk)]; tauto.
Qed.

Lemma keysInRange_visitCells cs acc :
  keysInRange st acc.1 -> keysInRange st (fold_left (visitCell st) cs acc).1.
Proof.
  revert acc. induction cs as [|c cs IH]; intros acc Hacc; simpl; [exact Hacc|].
  apply IH. apply keysInRange_visitSlots. exact Hacc.
Qed.

Lemma recorded_collectNeighbors vi ci :
  recorded (collectNeighbors st).1 vi ci
  <-> 0 <= ci < nb_cells T /\ exists k, 0 <= k < 4 /\ slotHolds st ci k vi.
Proof.
  unfold collectNeighbors. fold T. rewrite recorded_visitCells.
  rewrite elem_of_seqZ. simpl. unfold recorded at 1.
  rewrite lookup_empty. simpl. rewrite elem_of_empty.
  split; [intros [[] | [H1 H2]] | intros [H1 H2]; right]; (split; [lia | exact H2]).
Qed.

Lemma keysInRange_collectNeighbors : keysInRange st (collectNeighbors st).1.
Proof.
  apply keysInRange_visitCells. intros vi. simpl. rewrite lookup_empty.
  intros [? H]. discriminate H.
Qed.
End Cache.

(** The final loop writes each entry into its own slot. *)
Lemma storeEntries_other (entries : list (Z * gset Z)) (cache : list (list Z))
    (i : nat) :
  (forall it, it ∈ entries -> Z.to_nat it.1 <> i) ->
  fold_left storeEntry entries cache !! i = cache !! i.
Proof.
  revert cache. induction entries as [|it entries IH]; intros cache Hother; simpl.
  - reflexivity.
  - rewrite IH by (intros it' Hit'; apply Hother; right; exact Hit').
    unfold storeEntry. apply list_lookup_insert_ne. apply Hother. left.
Qed.

Lemma storeEntries_entry (entries : list (Z * gset Z)) (cache : list (list Z))
    (vi : Z) (cells : gset Z) :
  NoDup (entries.*1) ->
  (forall it, it ∈ entries -> 0 <= it.1) ->
  (vi, cells) ∈ entries ->
  (Z.to_nat vi < length cache)%nat ->
  fold_left storeEntry entries cache !! Z.to_nat vi = Some (assignFromSet cells).
Proof.
  revert cache. induction entries as [|it entries IH];
    intros cache Hnd Hpos Hin Hlen; simpl.
  - inversion Hin.
  - rewrite fmap_cons in Hnd. apply NoDup_cons in Hnd. destruct Hnd as [Hfresh Hnd].
    apply elem_of_cons in Hin. destruct Hin as [<- | Hin].
    + rewrite storeEntries_other.
      * unfold storeEntry. simpl. apply list_lookup_insert_eq. exact Hlen.
      * intros it' Hit' Heq. apply Hfresh. simpl.
        assert (it'.1 = vi).
        { pose proof (Hpos it' ltac:(right; exact Hit')).
          pose proof (Hpos (vi, cells) ltac:(left)). simpl in *. lia. }
        subst vi. apply list_elem_of_fmap. exists it'. auto.
    + apply IH; try assumption.
      * intros it' Hit'. apply Hpos. right. exact Hit'.
      * unfold storeEntry. rewrite length_insert. exact Hlen.
Qed.

Lemma assignFromSet_elem_of (cells : gset Z) (ci : Z) :
  ci ∈ assignFromSet cells <-> ci ∈ cells.
Proof.
  unfold assignFromSet. rewrite merge_sort_Permutation. apply elem_of_elements.
Qed.

Lemma assignFromSet_NoDup (cells : gset Z) : NoDup (assignFromSet cells).
Proof.
  unfold assignFromSet. rewrite merge_sort_Permutation. apply NoDup_elements.
Qed.

(** C2: after [updateVertexToCellsCache], a vertex index that is valid in
    [_verticesCoords] (and is not the sentinel) has a cache entry that lists,
    without repetition, exactly the cells of the triangulation having that
    vertex in one of their four slots. *)
Theorem updateVertexToCellsCache_exact {Point3d : Type}
    (st : DelaunayGraphCut Point3d) (vi : Z) :
  cachedVertex st vi ->
  exists cells,
    _neighboringCellsPerVertex (updateVertexToCellsCache st) !! Z.to_nat vi
      = Some cells
    /\ NoDup cells
    /\ forall ci,
         ci ∈ cells
         <-> 0 <= ci < nb_cells (_tetrahedralization st)
             /\ cellHasVertex (_tetrahedralization st) ci vi.
Proof.
  intros (Hno & Hvi). simpl.
  pose proof (recorded_collectNeighbors st vi) as Hrec.
  pose proof (keysInRange_collectNeighbors st) as Hkeys.
  set (tmp := (collectNeighbors st).1) in *.
  assert (Hspec : forall ci,
             recorded tmp vi ci
             <-> 0 <= ci < nb_cells (_tetrahedralization st)
                 /\ cellHasVertex (_tetrahedralization st) ci vi).
  { intros ci. rewrite Hrec. unfold cellHasVertex, slotHolds.
    split; intros [H1 [k Hk]]; (split; [exact H1|]); exists k; intuition. }
  destruct (tmp !! vi) as [cells|] eqn:Hlook.
  - exists (assignFromSet cells). split; [|split].
    + apply storeEntries_entry.
      * apply NoDup_fst_map_to_list.
      * intros [vi' s] Hit. apply elem_of_map_to_list in Hit. simpl.
        apply (Hkeys vi'). eauto.
      * apply elem_of_map_to_list. exact Hlook.
      * rewrite length_replicate. lia.
    + apply assignFromSet_NoDup.
    + intros ci. rewrite assignFromSet_elem_of, <- Hspec.
      unfold recorded. rewrite Hlook. reflexivity.
  - exists []. split; [|split].
    + rewrite storeEntries_other.
      * apply lookup_replicate. split; [reflexivity | lia].
      * intros [vi' s] Hit Heq. apply elem_of_map_to_list in Hit. simpl in Heq.
        assert (0 <= vi') by (apply (Hkeys vi'); eauto).
        assert (vi' = vi) by lia. congruence.
    + apply NoDup_nil_2.
    + intros ci. rewrite <- Hspec. unfold recorded. rewrite Hlook. simpl.
      rewrite elem_of_nil, elem_of_empty. reflexivity.
Qed.

Lemma updateVertexToCellsCache_exact_witness :
  exists cells,
    _neighboringCellsPerVertex (updateVertexToCellsCache twoCellsCut) !! Z.to_nat 4
      = Some cells
    /\ NoDup cells
    /\ forall ci,
         ci ∈ cells
         <-> 0 <= ci < nb_cells twoCells /\ cellHasVertex twoCells ci 4.
Proof.
  apply (updateVertexToCellsCache_exact twoCellsCut 4).
  split; [rewrite NO_VERTEX_value; lia | simpl; lia].
Defined.

(** ** Flood fill *)

Section Flood.
Variable T : Delaunay.
Variable labels : list bool.
Variable full : bool.
Variable colors : gmap Z nat.

Lemma elem_of_floodRound (reached : gset Z) (y : Z) :
  y ∈ floodRound T labels full colors reached
  <-> y ∈ reached
      \/ exists x, x ∈ reached /\ y ∈ mirrorCells T x
                   /\ crossable labels full colors y.
Proof.
  unfold floodRound. rewrite elem_of_union, elem_of_list_to_set, list_elem_of_bind.
  split.
  - intros [H | (x & Hy & Hx)]; [left; exact H | right].
    apply list_elem_of_filter in Hy. destruct Hy as [Hc Hy].
    apply elem_of_elements in Hx. exists x. auto.
  - intros [H | (x & Hx & Hy & Hc)]; [left; exact H | right].
    exists x. split; [|apply elem_of_elements; exact Hx].
    apply list_elem_of_filter. auto.
Qed.

Lemma floodRound_extends (reached : gset Z) :
  reached ⊆ floodRound T labels full colors reached.
Proof. intros x Hx. apply elem_of_floodRound. left. exact Hx. Qed.

Lemma floodFill_extends (rounds : nat) (reached : gset Z) :
  reached ⊆ floodFill T labels full colors rounds reached.
Proof.
  revert reached. induction rounds as [|n IH]; intros reached; simpl.
  - reflexivity.
  - etransitivity; [apply floodRound_extends | apply IH].
Qed.

Lemma floodFill_fixed (rounds : nat) (reached : gset Z) :
  floodRound T labels full colors reached = reached ->
  floodFill T labels full colors rounds reached = reached.
Proof.
  intros Hfix. induction rounds as [|n IH]; simpl; [reflexivity|].
  rewrite Hfix. exact IH.
Qed.

(** The fill stays inside any set that contains the seeds and is closed
    under crossing facets. *)
Lemma floodFill_least (rounds : nat) (reached within : gset Z) :
  reached ⊆ within ->
  (forall x y, x ∈ within -> y ∈ mirrorCells T x ->
               crossable labels full colors y -> y ∈ within) ->
  floodFill T labels full colors rounds reached ⊆ within.
Proof.
  intros Hsub Hclosed. revert reached Hsub.
  induction rounds as [|n IH]; intros reached Hsub; simpl; [exact Hsub|].
  apply IH. intros y Hy. apply elem_of_floodRound in Hy.
  destruct Hy as [Hy | (x & Hx & Hy & Hc)]; [apply Hsub; exact Hy|].
  apply (Hclosed x y); auto.
Qed.

(** Every cell added by the fill was crossable. *)
Lemma floodFill_added (rounds : nat) (reached : gset Z) (y : Z) :
  y ∈ floodFill T labels full colors rounds reached ->
  y ∈ reached \/ crossable labels full colors y.
Proof.
  revert reached. induction rounds as [|n IH]; intros reached; simpl; [auto|].
  intros Hy. destruct (IH _ Hy) as [Hr | Hc]; [|right; exact Hc].
  apply elem_of_floodRound in Hr.
  destruct Hr as [Hr | (x & _ & _ & Hc)]; [left; exact Hr | right; exact Hc].
Qed.

Lemma crossable_labelled (y : Z) :
  crossable labels full colors y -> y ∈ labelledCells labels.
Proof.
  intros (_ & Hl & _). unfold cellLabel in Hl.
  apply lookupZ_Some in Hl. destruct Hl as [Hpos Hl].
  apply lookup_lt_Some in Hl.
  unfold labelledCells. rewrite elem_of_list_to_set, elem_of_seqZ. lia.
Qed.

Lemma size_labelledCells : size (labelledCells labels) = length labels.
Proof.
  unfold labelledCells. rewrite size_list_to_set by apply NoDup_seqZ.
  rewrite length_seqZ. lia.
Qed.

Lemma floodRound_labelled (reached : gset Z) :
  reached ⊆ labelledCells labels ->
  floodRound T labels full colors reached ⊆ labelledCells labels.
Proof.
  intros Hsub y Hy. apply elem_of_floodRound in Hy.
  destruct Hy as [Hy | (x & _ & _ & Hc)]; [apply Hsub; exact Hy|].
  apply crossable_labelled. exact Hc.
Qed.

(** Once the rounds left make up for the labelled cells not yet reached,
    the fill ends on a set that a further round does not change. *)
Lemma floodFill_stable (rounds : nat) (reached : gset Z) :
  reached ⊆ labelledCells labels ->
  (length labels <= size reached + rounds)%nat ->
  floodRound T labels full colors (floodFill T labels full colors rounds reached)
  = floodFill T labels full colors rounds reached.
Proof.
  revert reached. induction rounds as [|n IH]; intros reached Hsub Hsize; simpl.
  - assert (Heq : reached = labelledCells labels).
    { apply set_subseteq_size_eq; [exact Hsub|].
      rewrite size_labelledCells. lia. }
    apply set_eq. intros y. split; [|apply floodRound_extends].
    intros Hy. pose proof (floodRound_labelled reached Hsub y Hy) as Hin.
    rewrite Heq. exact Hin.
  - destruct (decide (floodRound T labels full colors reached = reached))
      as [Hfix | Hgrow].
    + rewrite Hfix. rewrite (floodFill_fixed n reached Hfix). exact Hfix.
    + apply IH; [apply floodRound_labelled; exact Hsub|].
      assert (size reached < size (floodRound T labels full colors reached))%nat.
      { apply subset_size. split; [apply floodRound_extends|].
        intros Hback. apply Hgrow. apply set_eq. intros y.
        split; [apply Hback | apply floodRound_extends]. }
      lia.
Qed.

(** A fill from one labelled seed is closed under crossing facets. *)
Lemma floodFill_closed (seed x y : Z) :
  cellLabel labels seed = Some full ->
  x ∈ floodFill T labels full colors (length labels) {[seed]} ->
  y ∈ mirrorCells T x ->
  crossable labels full colors y ->
  y ∈ floodFill T labels full colors (length labels) {[seed]}.
Proof.
  intros Hseed Hx Hy Hc.
  rewrite <- floodFill_stable.
  - apply elem_of_floodRound. right. exists x. auto.
  - intros z Hz. apply elem_of_singleton in Hz. subst z.
    unfold cellLabel in Hseed. apply lookupZ_Some in Hseed.
    destruct Hseed as [Hpos Hl]. apply lookup_lt_Some in Hl.
    unfold labelledCells. rewrite elem_of_list_to_set, elem_of_seqZ. lia.
  - rewrite size_singleton. lia.
Qed.

End Flood.

(** ** Segmentation *)

Lemma elem_of_componentCells (colors : gmap Z nat) (col : nat) (x : Z) :
  x ∈ componentCells colors col <-> colors !! x = Some col.
Proof.
  unfold componentCells. rewrite elem_of_dom. unfold is_Some.
  setoid_rewrite map_lookup_filter_Some. simpl. split.
  - intros (col' & H & <-). exact H.
  - intros H. exists col. auto.
Qed.

Lemma lookup_new_segment (colors : gmap Z nat) (col : nat) (segment : gset Z)
    (x : Z) :
  (gset_to_gmap col segment ∪ colors) !! x
  = if decide (x ∈ segment) then Some col else colors !! x.
Proof.
  rewrite lookup_union, lookup_gset_to_gmap.
  destruct (decide (x ∈ segment)) as [Hin | Hout].
  - rewrite option_guard_True by exact Hin. simpl. destruct (colors !! x); reflexivity.
  - rewrite option_guard_False by exact Hout. simpl. destruct (colors !! x); reflexivity.
Qed.

Section Segments.
Variable T : Delaunay.
Variable labels : list bool.
Variable full : bool.

Lemma segment_cells (colors : gmap Z nat) (seed x : Z) :
  cellLabel labels seed = Some full ->
  colors !! seed = None ->
  x ∈ floodFill T labels full colors (length labels) {[seed]} ->
  cellLabel labels x = Some full /\ colors !! x = None.
Proof.
  intros Hl Hc Hx. apply floodFill_added in Hx.
  destruct Hx as [Hx | (_ & Hlx & Hcx)]; [|auto].
  apply elem_of_singleton in Hx. subst x. auto.
Qed.

Lemma segmentStep_fires (acc : gmap Z nat * nat) (ci : Z) :
  cellLabel labels ci = Some full -> acc.1 !! ci = None ->
  segmentStep T labels full acc ci
  = (gset_to_gmap acc.2 (floodFill T labels full acc.1 (length labels) {[ci]})
       ∪ acc.1, S acc.2).
Proof.
  intros Hl Hc. unfold segmentStep.
  destruct (decide _) as [_ | Hn]; [reflexivity | tauto].
Qed.

Lemma segmentStep_skips (acc : gmap Z nat * nat) (ci : Z) :
  ~ (cellLabel labels ci = Some full /\ acc.1 !! ci = None) ->
  segmentStep T labels full acc ci = acc.
Proof.
  intros Hn. unfold segmentStep. destruct (decide _) as [H | _]; [tauto | reflexivity].
Qed.

Lemma segmentStep_extends (acc : gmap Z nat * nat) (ci : Z) :
  segmentsExtend acc (segmentStep T labels full acc ci).
Proof.
  unfold segmentStep. destruct (decide _) as [[Hl Hc] | _].
  - split; [simpl; lia|]. split; simpl; intros x col; rewrite lookup_new_segment.
    + intros Hx. destruct (decide _) as [Hin | _]; [|exact Hx].
      destruct (segment_cells acc.1 ci x Hl Hc Hin) as [_ Hnone]. congruence.
    + destruct (decide _) as [_ | _]; [|auto]. intros [= <-]. right. lia.
  - split; [lia|]. split; auto.
Qed.

Lemma segmentStep_below (acc : gmap Z nat * nat) (ci : Z) :
  colorsBelow acc -> colorsBelow (segmentStep T labels full acc ci).
Proof.
  intros Hb. unfold segmentStep. destruct (decide _) as [_ | _]; [|exact Hb].
  intros x col. simpl. rewrite lookup_new_segment.
  destruct (decide _) as [_ | _].
  - intros [= <-]. lia.
  - intros Hx. specialize (Hb x col Hx). lia.
Qed.

Lemma segmentsExtend_refl (acc : gmap Z nat * nat) : segmentsExtend acc acc.
Proof. split; [lia|]. split; auto. Qed.

Lemma segmentsExtend_trans (a b c : gmap Z nat * nat) :
  segmentsExtend a b -> segmentsExtend b c -> segmentsExtend a c.
Proof.
  intros (Hn1 & Hk1 & Hnew1) (Hn2 & Hk2 & Hnew2). split; [lia|]. split.
  - intros x col Hx. apply Hk2, Hk1, Hx.
  - intros x col Hx. destruct (Hnew2 x col Hx) as [Hb | Hge]; [|right; lia].
    apply Hnew1. exact Hb.
Qed.

Lemma segmentSteps_extend (cs : list Z) (acc : gmap Z nat * nat) :
  segmentsExtend acc (fold_left (segmentStep T labels full) cs acc).
Proof.
  revert acc. induction cs as [|c cs IH]; intros acc; simpl.
  - apply segmentsExtend_refl.
  - eapply segmentsExtend_trans; [apply segmentStep_extends | apply IH].
Qed.

Lemma segmentSteps_below (cs : list Z) (acc : gmap Z nat * nat) :
  colorsBelow acc -> colorsBelow (fold_left (segmentStep T labels full) cs acc).
Proof.
  revert acc. induction cs as [|c cs IH]; intros acc Hb; simpl; [exact Hb|].
  apply IH. apply segmentStep_below. exact Hb.
Qed.

(** The component seeded at one turn of the loop is, in the final
    colouring, exactly the set filled at that turn. *)
Lemma seeded_component_final (cs : list Z) (acc final : gmap Z nat * nat)
    (ci : Z) :
  colorsBelow acc ->
  cellLabel labels ci = Some full -> acc.1 !! ci = None ->
  fold_left (segmentStep T labels full) cs (segmentStep T labels full acc ci)
    = final ->
  componentCells final.1 acc.2
  = floodFill T labels full acc.1 (length labels) {[ci]}.
Proof.
  intros Hb Hl Hc Hfinal.
  pose proof (segmentSteps_extend cs (segmentStep T labels full acc ci)) as Hext.
  rewrite Hfinal in Hext. rewrite (segmentStep_fires acc ci Hl Hc) in Hext.
  destruct Hext as (_ & Hkeep & Hnew). simpl in Hkeep, Hnew.
  apply set_eq. intros x. rewrite elem_of_componentCells. split.
  - intros Hx. destruct (Hnew x _ Hx) as [Hold | Hge]; [|lia].
    rewrite lookup_new_segment in Hold.
    destruct (decide _) as [Hin | _]; [exact Hin|].
    specialize (Hb x _ Hold). lia.
  - intros Hx. apply Hkeep. rewrite lookup_new_segment.
    destruct (decide _) as [_ | Hout]; [reflexivity | contradiction].
Qed.

End Segments.

(** ** Colourings with the same components *)

Lemma sameSegments_drop (removed : Z -> Prop) (colors colors' : gmap Z nat)
    (col : nat) (segment : gset Z) :
  sameSegments removed colors colors' ->
  (forall x, x ∈ segment -> colors !! x = None) ->
  (forall x, x ∈ segment -> removed x) ->
  (forall x, colors !! x <> Some col) ->
  sameSegments removed (gset_to_gmap col segment ∪ colors) colors'.
Proof.
  intros [Hdom Hsame] Hfresh Hrem Hcol. split.
  - intros x. rewrite lookup_new_segment, Hdom.
    destruct (decide (x ∈ segment)) as [Hin | Hout]; [|reflexivity].
    rewrite (Hfresh x Hin). split.
    + intros [[? H] _]. discriminate H.
    + intros [_ H]. exfalso. apply H, Hrem, Hin.
  - intros x y Hx. rewrite !lookup_new_segment, (Hsame x y Hx).
    apply Hdom in Hx. destruct Hx as [[q Hq] Hkeep].
    destruct (decide (x ∈ segment)) as [Hin | _];
      [exfalso; apply Hkeep, Hrem, Hin|].
    destruct (decide (y ∈ segment)) as [Hin | _]; [|reflexivity].
    rewrite (Hfresh y Hin), Hq. split; [discriminate|].
    intros [= <-]. exfalso. apply (Hcol x). exact Hq.
Qed.

Lemma sameSegments_add (removed : Z -> Prop) (colors colors' : gmap Z nat)
    (col col' : nat) (segment : gset Z) :
  sameSegments removed colors colors' ->
  (forall x, x ∈ segment -> colors !! x = None) ->
  (forall x, x ∈ segment -> ~ removed x) ->
  (forall x, colors !! x <> Some col) ->
  (forall x, colors' !! x <> Some col') ->
  sameSegments removed (gset_to_gmap col segment ∪ colors)
                       (gset_to_gmap col' segment ∪ colors').
Proof.
  intros [Hdom Hsame] Hfresh Hkeep Hcol Hcol'. split.
  - intros x. rewrite !lookup_new_segment.
    destruct (decide (x ∈ segment)) as [Hin | Hout]; [|apply Hdom].
    split; [intros _; split; [eauto | apply Hkeep, Hin] | eauto].
  - intros x y. rewrite !lookup_new_segment.
    destruct (decide (x ∈ segment)) as [Hx | Hx];
      destruct (decide (y ∈ segment)) as [Hy | Hy]; intros Hsome.
    + tauto.
    + split; intros H; exfalso; [apply (Hcol' y) | apply (Hcol y)]; exact H.
    + split; intros H; exfalso; [apply (Hcol' x) | apply (Hcol x)]; auto.
    + apply Hsame. exact Hsome.
Qed.

(** ** Removing dust *)

Section Dust.
Variable T : Delaunay.
Variable labels : list bool.
Variable minSegSize : Z.
Variable final : gmap Z nat.

Lemma cellLabel_dusted (x : Z) :
  cellLabel (imap (dustLabel final minSegSize) labels) x = Some true
  <-> cellLabel labels x = Some true /\ ~ isDust final labels minSegSize x.
Proof.
  unfold isDust, cellLabel.
  destruct (Z_lt_le_dec x 0) as [Hneg | Hpos].
  - rewrite !lookupZ_neg by exact Hneg. split; [discriminate | intros [H _]; discriminate H].
  - rewrite !lookupZ_nat by exact Hpos. rewrite list_lookup_imap.
    destruct (labels !! Z.to_nat x) as [[|]|]; simpl.
    + unfold dustLabel. rewrite Z2Nat.id by exact Hpos.
      destruct (final !! x) as [col|] eqn:Hcol; simpl.
      * destruct (Z.ltb_spec (Z.of_nat (size (componentCells final col))) minSegSize)
          as [Hlt | Hge].
        -- split; [discriminate|]. intros [_ Hn]. exfalso. apply Hn. eauto.
        -- split; [|reflexivity]. intros _. split; [reflexivity|].
           intros (_ & col' & [= <-] & Hlt). lia.
      * split; [|reflexivity]. intros _. split; [reflexivity|].
        intros (_ & col' & H & _). discriminate H.
    + unfold dustLabel. destruct (final !! Z.of_nat (Z.to_nat x)); simpl;
        (split; [discriminate | intros [H _]; discriminate H]).
    + split; [discriminate | intros [H _]; discriminate H].
Qed.

Lemma crossable_dusted (colors colors' : gmap Z nat) (y : Z) :
  sameSegments (isDust final labels minSegSize) colors colors' ->
  crossable (imap (dustLabel final minSegSize) labels) true colors' y
  <-> crossable labels true colors y /\ ~ isDust final labels minSegSize y.
Proof.
  intros [Hdom _]. unfold crossable. rewrite cellLabel_dusted. split.
  - intros (Hy & (Hl & Hkeep) & Hc). repeat split; try assumption.
    apply eq_None_not_Some. intros Hsome.
    assert (is_Some (colors' !! y)) as [q Hq] by (apply Hdom; auto).
    congruence.
  - intros ((Hy & Hl & Hc) & Hkeep). repeat split; try assumption.
    apply eq_None_not_Some. intros Hsome. apply Hdom in Hsome.
    destruct Hsome as [[q Hq] _]. congruence.
Qed.

(** A component that is kept is filled to the same set of cells after the
    dust has been relabelled. *)
Lemma floodFill_dusted (colors colors' : gmap Z nat) (seed : Z) :
  sameSegments (isDust final labels minSegSize) colors colors' ->
  cellLabel labels seed = Some true ->
  ~ isDust final labels minSegSize seed ->
  (forall x, x ∈ floodFill T labels true colors (length labels) {[seed]} ->
             ~ isDust final labels minSegSize x) ->
  floodFill T (imap (dustLabel final minSegSize) labels) true colors'
            (length (imap (dustLabel final minSegSize) labels)) {[seed]}
  = floodFill T labels true colors (length labels) {[seed]}.
Proof.
  intros Hrel Hseed Hkeep Hnone.
  set (labels' := imap (dustLabel final minSegSize) labels).
  assert (Hseed' : cellLabel labels' seed = Some true).
  { apply cellLabel_dusted. auto. }
  assert (Hsub : floodFill T labels' true colors' (length labels') {[seed]}
                 ⊆ floodFill T labels true colors (length labels) {[seed]}).
  { apply floodFill_least; [apply floodFill_extends|].
    intros x y Hx Hy Hc. apply (crossable_dusted colors colors' y Hrel) in Hc.
    destruct Hc as [Hc _]. apply (floodFill_closed T labels true colors seed x y); auto. }
  apply set_eq. intros z. split; [apply Hsub|].
  revert z. apply floodFill_least; [apply floodFill_extends|].
  intros x y Hx Hy Hc.
  assert (Hin : y ∈ floodFill T labels true colors (length labels) {[seed]}).
  { apply (floodFill_closed T labels true colors seed x y); auto. }
  apply (floodFill_closed T labels' true colors' seed x y); auto.
  apply (crossable_dusted colors colors' y Hrel). auto.
Qed.

(** Segmenting the relabelled cells turn by turn follows the segmentation of
    the original cells, leaving out the components that were dust. *)
Lemma segmentSteps_dusted (cs : list Z) (acc acc' : gmap Z nat * nat) :
  (fold_left (segmentStep T labels true) cs acc).1 = final ->
  colorsBelow acc -> colorsBelow acc' ->
  sameSegments (isDust final labels minSegSize) acc.1 acc'.1 ->
  sameSegments (isDust final labels minSegSize) final
    (fold_left (segmentStep T (imap (dustLabel final minSegSize) labels) true)
               cs acc').1.
Proof.
  revert acc acc'. induction cs as [|ci cs IH];
    intros acc acc' Hfinal Hb Hb' Hrel; simpl in *.
  - rewrite Hfinal in Hrel. exact Hrel.
  - apply (IH (segmentStep T labels true acc ci)); clear IH;
      [exact Hfinal | apply segmentStep_below; exact Hb
       | apply segmentStep_below; exact Hb' |].
    set (labels' := imap (dustLabel final minSegSize) labels) in *.
    destruct (decide (cellLabel labels ci = Some true /\ acc.1 !! ci = None))
      as [[Hl Hc] | Hskip].
    + set (segment := floodFill T labels true acc.1 (length labels) {[ci]}).
      assert (Hcomp : componentCells final acc.2 = segment).
      { rewrite <- Hfinal.
        apply (seeded_component_final T labels true cs acc _ ci Hb Hl Hc eq_refl). }
      assert (Hcells : forall x, x ∈ segment ->
                cellLabel labels x = Some true /\ acc.1 !! x = None).
      { intros x Hx. apply (segment_cells T labels true acc.1 ci x Hl Hc Hx). }
      assert (Huniform : forall x, x ∈ segment ->
                (isDust final labels minSegSize x
                 <-> Z.of_nat (size segment) < minSegSize)).
      { intros x Hx. unfold isDust.
        assert (Hcol : final !! x = Some acc.2).
        { apply elem_of_componentCells. rewrite Hcomp. exact Hx. }
        split.
        - intros (_ & col & Hcol' & Hlt). rewrite Hcol in Hcol'.
          injection Hcol' as <-. rewrite Hcomp in Hlt. exact Hlt.
        - intros Hlt. split; [apply Hcells, Hx|]. exists acc.2.
          rewrite Hcomp. auto. }
      assert (Hseed : ci ∈ segment).
      { apply floodFill_extends. apply elem_of_singleton. reflexivity. }
      assert (Hunused : forall x, acc.1 !! x <> Some acc.2).
      { intros x Hx. specialize (Hb x _ Hx). lia. }
      rewrite (segmentStep_fires T labels true acc ci Hl Hc). fold segment.
      destruct (Z_lt_le_dec (Z.of_nat (size segment)) minSegSize) as [Hsmall | Hbig].
      * rewrite segmentStep_skips.
        -- apply sameSegments_drop; auto.
           ++ intros x Hx. apply Hcells, Hx.
           ++ intros x Hx. apply Huniform; assumption.
        -- intros [Hl' _]. apply cellLabel_dusted in Hl'. destruct Hl' as [_ Hkeep].
           apply Hkeep. apply Huniform; assumption.
      * assert (Hkept : forall x, x ∈ segment -> ~ isDust final labels minSegSize x).
        { intros x Hx Hd. apply Huniform in Hd; [lia | exact Hx]. }
        assert (Hc' : acc'.1 !! ci = None).
        { apply eq_None_not_Some. intros Hsome. apply (proj1 Hrel) in Hsome.
          destruct Hsome as [[q Hq] _]. congruence. }
        rewrite segmentStep_fires;
          [| apply cellLabel_dusted; split; [exact Hl | apply Hkept, Hseed]
           | exact Hc'].
        simpl. unfold labels'.
        rewrite (floodFill_dusted acc.1 acc'.1 ci Hrel Hl (Hkept ci Hseed) Hkept).
        fold segment. apply sameSegments_add; auto.
        -- intros x Hx. apply Hcells, Hx.
        -- intros x Hx. specialize (Hb' x _ Hx). lia.
    + rewrite (segmentStep_skips T labels true acc ci Hskip).
      rewrite segmentStep_skips; [exact Hrel|].
      intros [Hl' Hc']. apply cellLabel_dusted in Hl'. destruct Hl' as [Hl Hkeep].
      apply Hskip. split; [exact Hl|].
      apply eq_None_not_Some. intros Hsome.
      assert (is_Some (acc'.1 !! ci)) as [q Hq] by (apply (proj1 Hrel); auto).
      congruence.
Qed.

End Dust.

Lemma sameSegments_empty (removed : Z -> Prop) : sameSegments removed ∅ ∅.
Proof.
  split.
  - intros x. rewrite lookup_empty. split; [intros [? H]; discriminate H|].
    intros [[? H] _]. discriminate H.
  - intros x y [? H]. rewrite lookup_empty in H. discriminate H.
Qed.

Lemma colorsBelow_empty : colorsBelow (∅, O).
Proof. intros x col H. simpl in H. rewrite lookup_empty in H. discriminate H. Qed.

Lemma removeDustLabels_idempotent (T : Delaunay) (labels : list bool)
    (minSegSize : Z) :
  removeDustLabels T (removeDustLabels T labels minSegSize) minSegSize
  = removeDustLabels T labels minSegSize.
Proof.
  unfold removeDustLabels.
  set (final := (segmentCells T labels true).1).
  set (labels' := imap (dustLabel final minSegSize) labels).
  set (final' := (segmentCells T labels' true).1).
  assert (Hrel : sameSegments (isDust final labels minSegSize) final final').
  { apply (segmentSteps_dusted T labels minSegSize final
             (seqZ 0 (nb_cells T)) (∅, O) (∅, O)).
    - reflexivity.
    - apply colorsBelow_empty.
    - apply colorsBelow_empty.
    - apply sameSegments_empty. }
  destruct Hrel as [Hdom Hsame].
  apply list_eq. intros i. rewrite list_lookup_imap.
  destruct (labels' !! i) as [b|] eqn:Hi; simpl; [|reflexivity]. f_equal.
  unfold dustLabel.
  destruct (final' !! Z.of_nat i) as [col'|] eqn:Hcol'; [|reflexivity].
  destruct b; [|reflexivity]. simpl.
  destruct (Z.ltb_spec (Z.of_nat (size (componentCells final' col'))) minSegSize)
    as [Hlt | _]; [exfalso | reflexivity].
  assert (Hsome : is_Some (final' !! Z.of_nat i)) by eauto.
  destruct (proj1 (Hdom _) Hsome) as [[col Hcol] Hkeep].
  assert (Hcells : componentCells final' col' = componentCells final col).
  { apply set_eq. intros z. rewrite !elem_of_componentCells.
    rewrite <- Hcol', <- Hcol. apply Hsame. exact Hsome. }
  assert (Hl : cellLabel labels' (Z.of_nat i) = Some true).
  { unfold cellLabel. rewrite lookupZ_nat by lia. rewrite Nat2Z.id. exact Hi. }
  apply cellLabel_dusted in Hl. destruct Hl as [Hl _].
  apply Hkeep. split; [exact Hl|]. exists col. rewrite <- Hcells. auto.
Qed.

(** C9: relabelling the dust twice with the same threshold gives the same
    graph-cut object, hence the same cell labels, as relabelling it once. *)
Theorem removeDust_idempotent {Point3d : Type} (st : DelaunayGraphCut Point3d)
    (minSegSize : Z) :
  removeDust (removeDust st minSegSize) minSegSize = removeDust st minSegSize.
Proof.
  unfold removeDust. simpl. f_equal. apply removeDustLabels_idempotent.
Qed.

(** The lone full cell of the two glued tetrahedra is dust for a threshold
    of 2 and is kept for a threshold of 1. *)
Example removeDust_twoCells :
  _cellIsFull (removeDust twoCellsCut 2) = [false; false]
  /\ _cellIsFull (removeDust twoCellsCut 1) = [true; false].
Proof. split; vm_compute; reflexivity. Qed.

(** The scenario of the spec: with a threshold of 5, a full component of
    three cells is relabelled empty and one of ten cells is left as it is;
    doing it again changes nothing. *)
Example removeDust_chain :
  _cellIsFull (removeDust chainCut 5)
  = [false; false; false; false] ++ replicate 10 true
  /\ _cellIsFull (removeDust (removeDust chainCut 5) 5)
     = [false; false; false; false] ++ replicate 10 true.
Proof. split; vm_compute; reflexivity. Qed.

(** * Further properties of the inline functions *)

(** ** Local slots *)

Lemma to_index_mod4 (z : Z) : to_index z mod 4 = z mod 4.
Proof.
  unfold to_index, index_modulus. apply Z.mod_mod_divide.
  exists 1073741824. reflexivity.
Qed.

Lemma add_to_index_mod4 (a b : Z) : (a + to_index b) mod 4 = (a + b) mod 4.
Proof.
  rewrite (Z.add_mod a (to_index b)) by lia. rewrite to_index_mod4.
  rewrite <- (Z.add_mod a b) by lia. reflexivity.
Qed.

Lemma localSlot_mod4 (f : Facet) (i : Z) :
  localSlot f i = (localVertexIndex f + i + 1) mod 4.
Proof.
  unfold localSlot. rewrite to_index_mod4.
  rewrite (Z.add_comm (to_index _) 1), add_to_index_mod4.
  rewrite Z.add_assoc, add_to_index_mod4. f_equal. lia.
Qed.

(** X1: whatever the opposite slot stored in a facet and whatever the
    relative index, the slot read by [getVertexIndex] is the residue of
    [localVertexIndex + i + 1] modulo 4: the unsigned wrap-around never shows,
    and the slot handed to [cell_vertex] is always one of 0..3.  For a facet
    with opposite slot in 0..3, relative index 3 (or -1) reads the opposite
    vertex. *)
Theorem getVertexIndex_slot (T : Delaunay) (f : Facet) (i : Z) :
  localSlot f i = (localVertexIndex f + i + 1) mod 4
  /\ 0 <= localSlot f i < 4
  /\ localSlot f (i + 4) = localSlot f i
  /\ (0 <= localVertexIndex f < 4 ->
      getVertexIndex T f 3 = getOppositeVertexIndex T f
      /\ getVertexIndex T f (-1) = getOppositeVertexIndex T f).
Proof.
  split; [apply localSlot_mod4|]. split; [|split].
  - rewrite localSlot_mod4. apply Z.mod_pos_bound. lia.
  - rewrite !localSlot_mod4.
    replace (localVertexIndex f + (i + 4) + 1)
      with (localVertexIndex f + i + 1 + 1 * 4) by lia.
    apply Z.mod_add. lia.
  - intros Hl. unfold getVertexIndex, getOppositeVertexIndex.
    rewrite !localSlot_mod4.
    replace (localVertexIndex f + 3 + 1) with (localVertexIndex f + 1 * 4) by lia.
    replace (localVertexIndex f + -1 + 1) with (localVertexIndex f) by lia.
    rewrite Z.mod_add by lia. rewrite Z.mod_small by lia. split; reflexivity.
Qed.

Lemma getVertexIndex_slot_witness :
  getVertexIndex twoCells {| cellIndex := 1; localVertexIndex := 2 |} 3
  = getOppositeVertexIndex twoCells {| cellIndex := 1; localVertexIndex := 2 |}
  /\ getVertexIndex twoCells {| cellIndex := 1; localVertexIndex := 2 |} (-1)
     = getOppositeVertexIndex twoCells {| cellIndex := 1; localVertexIndex := 2 |}.
Proof.
  apply (getVertexIndex_slot twoCells {| cellIndex := 1; localVertexIndex := 2 |} 0).
  simpl. lia.
Defined.

(** ** More on facet mirroring *)

Lemma searchAbsentVertex_None (T : Delaunay) (ci : Z) (fv ks : list Z) :
  searchAbsentVertex T ci fv ks = None ->
  forall k, k ∈ ks -> to_index (cell_vertex T ci k) ∈ fv.
Proof.
  induction ks as [|k0 ks IH]; simpl; intros Hs k Hk; [inversion Hk|].
  destruct (found (to_index (cell_vertex T ci k0)) fv) eqn:Hf; simpl in Hs;
    [|discriminate].
  apply elem_of_cons in Hk. destruct Hk as [-> | Hk].
  - apply found_spec. exact Hf.
  - apply IH; assumption.
Qed.

Lemma searchAbsentVertex_first (T : Delaunay) (ci : Z) (fv ks : list Z) (k : Z) :
  searchAbsentVertex T ci fv ks = Some k ->
  exists before after,
    ks = before ++ k :: after
    /\ forall k', k' ∈ before -> to_index (cell_vertex T ci k') ∈ fv.
Proof.
  induction ks as [|k0 ks IH]; simpl; [discriminate|].
  destruct (found (to_index (cell_vertex T ci k0)) fv) eqn:Hf; simpl.
  - intros Hs. destruct (IH Hs) as (before & after & -> & Hbefore).
    exists (k0 :: before), after. split; [reflexivity|].
    intros k' Hk'. apply elem_of_cons in Hk'. destruct Hk' as [-> | Hk'].
    + apply found_spec. exact Hf.
    + apply Hbefore. exact Hk'.
  - intros [= <-]. exists [], ks. split; [reflexivity|].
    intros k' Hk'. inversion Hk'.
Qed.

Lemma slots_before (before after : list Z) (k k' : Z) :
  [0; 1; 2; 3] = before ++ k :: after -> 0 <= k' < k -> k' ∈ before.
Proof.
  intros Heq Hk'.
  destruct before as [|b0 [|b1 [|b2 [|b3 before]]]]; simpl in Heq;
    injection Heq; intros; subst;
    try (rewrite !elem_of_cons; lia);
    try (exfalso; lia).
  destruct before; discriminate.
Qed.

(** X2: with a cell across the facet, [mirrorFacet] returns that cell with
    the first of its slots 0, 1, 2, 3 whose vertex is none of the facet's
    three vertices, every earlier slot holding a facet vertex; when all four
    vertices of the cell across are facet vertices, it returns that cell with
    [NO_VERTEX] as its slot. *)
Theorem mirrorFacet_first_absent (T : Delaunay) (f : Facet) :
  let adjacent := to_index (cell_adjacent T (cellIndex f) (localVertexIndex f)) in
  adjacent <> NO_CELL ->
  (exists k,
      0 <= k < 4
      /\ mirrorFacet T f = {| cellIndex := adjacent; localVertexIndex := k |}
      /\ absentFrom T adjacent (facetVertices T f) k
      /\ forall k', 0 <= k' < k ->
                    to_index (cell_vertex T adjacent k') ∈ facetVertices T f)
  \/ (mirrorFacet T f = {| cellIndex := adjacent; localVertexIndex := NO_VERTEX |}
      /\ forall k, 0 <= k < 4 ->
                   to_index (cell_vertex T adjacent k) ∈ facetVertices T f).
Proof.
  intros adjacent Hadj. unfold mirrorFacet. fold adjacent.
  destruct (Z.eqb_spec adjacent NO_CELL) as [|_]; [contradiction|].
  destruct (searchAbsentVertex T adjacent (facetVertices T f) [0; 1; 2; 3])
    as [k|] eqn:Hs.
  - left. exists k.
    destruct (searchAbsentVertex_Some T _ _ _ _ Hs) as [Hin Habs].
    apply slot_elem_of in Hin.
    destruct (searchAbsentVertex_first T _ _ _ _ Hs) as (before & after & Heq & Hb).
    split; [exact Hin|]. split; [rewrite slot_is_index by exact Hin; reflexivity|].
    split; [exact Habs|].
    intros k' Hk'. apply Hb. apply (slots_before before after k k' Heq Hk').
  - right. split; [reflexivity|].
    intros k Hk. apply (searchAbsentVertex_None T _ _ _ Hs). apply slot_elem_of, Hk.
Qed.

Lemma mirrorFacet_first_absent_witness :
  (exists k,
      0 <= k < 4
      /\ mirrorFacet twoCells {| cellIndex := 1; localVertexIndex := 3 |}
         = {| cellIndex := 0; localVertexIndex := k |}
      /\ absentFrom twoCells 0
           (facetVertices twoCells {| cellIndex := 1; localVertexIndex := 3 |}) k
      /\ forall k', 0 <= k' < k ->
           to_index (cell_vertex twoCells 0 k')
             ∈ facetVertices twoCells {| cellIndex := 1; localVertexIndex := 3 |})
  \/ (mirrorFacet twoCells {| cellIndex := 1; localVertexIndex := 3 |}
      = {| cellIndex := 0; localVertexIndex := NO_VERTEX |}
      /\ forall k, 0 <= k < 4 ->
           to_index (cell_vertex twoCells 0 k)
             ∈ facetVertices twoCells {| cellIndex := 1; localVertexIndex := 3 |}).
Proof.
  apply (mirrorFacet_first_absent twoCells {| cellIndex := 1; localVertexIndex := 3 |}).
  vm_compute. discriminate.
Defined.

(** X3: when the cell across a facet has four distinct vertex references,
    the search of [mirrorFacet] cannot fail (four distinct vertices do not
    fit among the three facet vertices): the mirror is defined and its slot
    is one of 0..3. *)
Theorem mirrorFacet_defined_when_distinct (T : Delaunay) (f : Facet) :
  let adjacent := to_index (cell_adjacent T (cellIndex f) (localVertexIndex f)) in
  adjacent <> NO_CELL ->
  NoDup (cellVertices T adjacent) ->
  mirrorDefined (mirrorFacet T f)
  /\ 0 <= localVertexIndex (mirrorFacet T f) < 4.
Proof.
  intros adjacent Hadj Hnd. unfold mirrorDefined.
  rewrite mirrorFacet_cell. fold adjacent.
  unfold mirrorFacet. fold adjacent.
  destruct (Z.eqb_spec adjacent NO_CELL) as [|_]; [contradiction|].
  destruct (searchAbsentVertex T adjacent (facetVertices T f) [0; 1; 2; 3])
    as [k|] eqn:Hs; simpl.
  - apply searchAbsentVertex_Some in Hs. destruct Hs as [Hin _].
    apply slot_elem_of in Hin. rewrite slot_is_index by exact Hin.
    rewrite NO_VERTEX_value. repeat split; try assumption; lia.
  - exfalso.
    assert (Hsub : cellVertices T adjacent ⊆+ facetVertices T f).
    { apply NoDup_submseteq; [exact Hnd|].
      intros x Hx. unfold cellVertices in Hx.
      apply list_elem_of_fmap in Hx. destruct Hx as (k & -> & Hk).
      apply (searchAbsentVertex_None T _ _ _ Hs). exact Hk. }
    apply submseteq_length in Hsub. simpl in Hsub. lia.
Qed.

Lemma mirrorFacet_defined_when_distinct_witness :
  mirrorDefined (mirrorFacet twoCells {| cellIndex := 0; localVertexIndex := 0 |})
  /\ 0 <= localVertexIndex
            (mirrorFacet twoCells {| cellIndex := 0; localVertexIndex := 0 |}) < 4.
Proof.
  apply (mirrorFacet_defined_when_distinct twoCells
           {| cellIndex := 0; localVertexIndex := 0 |}).
  - vm_compute. discriminate.
  - apply (twoCells_distinct 1); [simpl; lia | reflexivity].
Defined.

Lemma mirrorFacet_back_slot (T : Delaunay) (f : Facet) :
  adjacencySymmetric T ->
  validFacet T f ->
  mirrorDefined (mirrorFacet T f) ->
  exists j,
    0 <= j < 4
    /\ mirrorFacet T f
       = {| cellIndex := to_index (cell_adjacent T (cellIndex f) (localVertexIndex f));
            localVertexIndex := j |}
    /\ to_index (cell_adjacent T
                   (to_index (cell_adjacent T (cellIndex f) (localVertexIndex f))) j)
       = cellIndex f
    /\ (forall x,
          x ∈ facetVertices T
                {| cellIndex := to_index (cell_adjacent T (cellIndex f)
                                                        (localVertexIndex f));
                   localVertexIndex := j |}
          <-> x ∈ facetVertices T f)
    /\ absentFrom T (to_index (cell_adjacent T (cellIndex f) (localVertexIndex f)))
                  (facetVertices T f) j.
Proof.
  intros Hsym (Hc & _ & Hi) Hdef. destruct f as [c i]. simpl in Hc, Hi.
  destruct (mirrorFacet_defined_inv T _ Hdef) as (Hadj & k & Hk & Habs & Hm).
  simpl in Hadj, Habs, Hm. simpl.
  destruct (Hsym c i Hc Hi Hadj) as (j & Hj & Hback & Hsame).
  assert (Hkj : k = j).
  { destruct (Z.eq_dec k j) as [|Hne]; [assumption|]. exfalso.
    apply Habs. apply Hsame. apply other_slot_in_facet; assumption. }
  subst k. exists j. auto.
Qed.

(** X4: in a triangulation with symmetric adjacency, the defined mirror of a
    facet is the same face seen from the other cell: its slot is one of 0..3,
    crossing it leads back to the cell of the facet, its three vertices are
    those of the facet, and its opposite vertex is none of them. *)
Theorem mirrorFacet_shares_face (T : Delaunay) (f : Facet) :
  adjacencySymmetric T ->
  validFacet T f ->
  mirrorDefined (mirrorFacet T f) ->
  let m := mirrorFacet T f in
  0 <= localVertexIndex m < 4
  /\ to_index (cell_adjacent T (cellIndex m) (localVertexIndex m)) = cellIndex f
  /\ (forall x, x ∈ facetVertices T m <-> x ∈ facetVertices T f)
  /\ getOppositeVertexIndex T m ∉ facetVertices T f.
Proof.
  intros Hsym Hvalid Hdef m.
  destruct (mirrorFacet_back_slot T f Hsym Hvalid Hdef)
    as (j & Hj & Hm & Hback & Hsame & Habs).
  subst m. rewrite Hm. simpl. unfold getOppositeVertexIndex. simpl. auto.
Qed.

Lemma mirrorFacet_shares_face_witness :
  let m := mirrorFacet twoCells {| cellIndex := 0; localVertexIndex := 0 |} in
  0 <= localVertexIndex m < 4
  /\ to_index (cell_adjacent twoCells (cellIndex m) (localVertexIndex m)) = 0
  /\ (forall x, x ∈ facetVertices twoCells m
                <-> x ∈ facetVertices twoCells
                          {| cellIndex := 0; localVertexIndex := 0 |})
  /\ getOppositeVertexIndex twoCells m
       ∉ facetVertices twoCells {| cellIndex := 0; localVertexIndex := 0 |}.
Proof.
  apply (mirrorFacet_shares_face twoCells {| cellIndex := 0; localVertexIndex := 0 |}).
  - exact twoCells_symmetric.
  - unfold validFacet. simpl. rewrite NO_CELL_value. lia.
  - split; vm_compute; discriminate.
Defined.

(** ** The points of a facet *)

Lemma facetVertices_NoDup (T : Delaunay) (c i : Z) :
  0 <= i < 4 -> NoDup (cellVertices T c) ->
  NoDup (facetVertices T {| cellIndex := c; localVertexIndex := i |}).
Proof.
  intros Hi Hnd. unfold cellVertices in Hnd. simpl in Hnd.
  unfold facetVertices, getVertexIndex. simpl.
  rewrite !NoDup_cons, !not_elem_of_cons in Hnd.
  each_slot Hi; eval_slots;
    rewrite !NoDup_cons, !not_elem_of_cons;
    intuition (congruence || eauto using not_elem_of_nil, NoDup_nil_2).
Qed.

Lemma mapM_Permutation {A B : Type} (g : A -> option B) (l k : list A)
    (ys : list B) :
  l ≡ₚ k -> mapM g l = Some ys ->
  exists ys', mapM g k = Some ys' /\ ys' ≡ₚ ys.
Proof.
  intros Hperm. revert ys.
  induction Hperm as [|a l k _ IH|a b l|l k k' _ IH1 _ IH2]; intros ys Hys.
  - exists ys. auto.
  - apply mapM_Some in Hys. apply Forall2_cons_inv_l in Hys.
    destruct Hys as (y & ys0 & Hy & Hys0 & ->).
    apply mapM_Some in Hys0. destruct (IH _ Hys0) as (ys0' & Hk & Hp).
    exists (y :: ys0'). split; [|constructor; exact Hp].
    apply mapM_Some. constructor; [exact Hy | apply mapM_Some; exact Hk].
  - apply mapM_Some in Hys. apply Forall2_cons_inv_l in Hys.
    destruct Hys as (y1 & ys1 & Hy1 & Hys1 & ->).
    apply Forall2_cons_inv_l in Hys1.
    destruct Hys1 as (y2 & ys2 & Hy2 & Hys2 & ->).
    exists (y2 :: y1 :: ys2). split; [|constructor].
    apply mapM_Some. repeat constructor; assumption.
  - destruct (IH1 _ Hys) as (ys1 & Hk & Hp1).
    destruct (IH2 _ Hk) as (ys2 & Hk' & Hp2).
    exists ys2. split; [exact Hk' | etransitivity; eassumption].
Qed.

Lemma getFacetsPoints_mapM {Point3d : Type} (st : DelaunayGraphCut Point3d)
    (f : Facet) :
  getFacetsPoints st f
  = mapM (lookupZ (_verticesCoords st)) (facetVertices (_tetrahedralization st) f).
Proof.
  unfold getFacetsPoints, facetVertices. simpl.
  destruct (lookupZ _ (getVertexIndex _ f 0)); simpl; [|reflexivity].
  destruct (lookupZ _ (getVertexIndex _ f 1)); simpl; [|reflexivity].
  destruct (lookupZ _ (getVertexIndex _ f 2)); simpl; reflexivity.
Qed.

(** X5: in a triangulation with symmetric adjacency, when the cells on both
    sides of a facet have four distinct vertex references and the points of
    the facet can be read, the points of its mirror can be read too and are
    the same three points, up to their order. *)
Theorem getFacetsPoints_mirror {Point3d : Type} (st : DelaunayGraphCut Point3d)
    (f : Facet) (points : list Point3d) :
  let T := _tetrahedralization st in
  adjacencySymmetric T ->
  validFacet T f ->
  mirrorDefined (mirrorFacet T f) ->
  NoDup (cellVertices T (cellIndex f)) ->
  NoDup (cellVertices T (cellIndex (mirrorFacet T f))) ->
  getFacetsPoints st f = Some points ->
  exists points',
    getFacetsPoints st (mirrorFacet T f) = Some points' /\ points' ≡ₚ points.
Proof.
  intros T Hsym Hvalid Hdef Hnd Hnd' Hpts.
  destruct (mirrorFacet_back_slot T f Hsym Hvalid Hdef)
    as (j & Hj & Hm & _ & Hsame & _).
  rewrite Hm in Hnd' |- *. simpl in Hnd'.
  rewrite getFacetsPoints_mapM in Hpts |- *. fold T in Hpts |- *.
  apply (mapM_Permutation _ (facetVertices T f)); [|exact Hpts].
  symmetry. apply NoDup_Permutation.
  - apply facetVertices_NoDup; assumption.
  - destruct f as [c i]. destruct Hvalid as (_ & _ & Hi).
    apply facetVertices_NoDup; assumption.
  - exact Hsame.
Qed.

Lemma getFacetsPoints_mirror_witness :
  exists points',
    getFacetsPoints twoCellsCut
      (mirrorFacet twoCells {| cellIndex := 0; localVertexIndex := 0 |})
    = Some points'
    /\ points' ≡ₚ [(); (); ()].
Proof.
  apply (getFacetsPoints_mirror twoCellsCut
           {| cellIndex := 0; localVertexIndex := 0 |} [(); (); ()]).
  - exact twoCells_symmetric.
  - unfold validFacet. simpl. rewrite NO_CELL_value. lia.
  - split; vm_compute; discriminate.
  - apply (twoCells_distinct 0); [simpl; lia | reflexivity].
  - apply (twoCells_distinct 1); [simpl; lia | reflexivity].
  - reflexivity.
Defined.

(** ** The nearest vertex of a cell *)

Section NearestVertexProofs.
Context {Point3d : Type} {double : Type}.
Variable distance2 : Point3d -> Point3d -> double.
Variable double_max : double.
Variable double_lt : double -> double -> bool.
Variable st : DelaunayGraphCut Point3d.
Variable cellIndex : Z.
Variable p : Point3d.

Lemma nearestVertexSteps_undefined (ks : list Z) :
  fold_left (nearestVertexStep distance2 double_lt st cellIndex p) ks None = None.
Proof. induction ks as [|k ks IH]; simpl; [reflexivity | exact IH]. Qed.

Lemma nearestVertexSteps_defined (ks : list Z) (result result' : Z)
    (d d' : double) :
  fold_left (nearestVertexStep distance2 double_lt st cellIndex p) ks
            (Some (result, d)) = Some (result', d') ->
  (forall i, i ∈ ks -> slotIsFinite st cellIndex i -> slotIsReadable st cellIndex i)
  /\ (result' = result
      \/ exists i, i ∈ ks /\ slotIsFinite st cellIndex i
                   /\ result' = cell_vertex (_tetrahedralization st) cellIndex i).
Proof.
  revert result d. induction ks as [|k ks IH]; intros result d; simpl.
  - intros [= <- <-]. split; [intros i Hi; inversion Hi | left; reflexivity].
  - destruct (Z.ltb_spec (cell_vertex (_tetrahedralization st) cellIndex k) 0)
      as [Hneg | Hpos].
    + intros H. destruct (IH _ _ H) as [Hread Hres]. split.
      * intros i Hi Hfin. apply elem_of_cons in Hi. destruct Hi as [-> | Hi].
        -- unfold slotIsFinite in Hfin. lia.
        -- apply Hread; assumption.
      * destruct Hres as [-> | (i & Hi & Hfin & ->)]; [left; reflexivity | right].
        exists i. split; [right; exact Hi | auto].
    + destruct (lookupZ (_verticesCoords st)
                        (cell_vertex (_tetrahedralization st) cellIndex k))
        as [q|] eqn:Hq.
      * assert (Hk : slotIsReadable st cellIndex k) by (unfold slotIsReadable; rewrite Hq; eauto).
        destruct (double_lt (distance2 q p) d); intros H;
          destruct (IH _ _ H) as [Hread Hres]; (split;
            [ intros i Hi Hfin; apply elem_of_cons in Hi;
              destruct Hi as [-> | Hi]; [exact Hk | apply Hread; assumption] |]).
        -- right. destruct Hres as [-> | (i & Hi & Hfin & ->)].
           ++ exists k. split; [left | auto].
           ++ exists i. split; [right; exact Hi | auto].
        -- destruct Hres as [-> | (i & Hi & Hfin & ->)]; [left; reflexivity | right].
           exists i. split; [right; exact Hi | auto].
      * rewrite nearestVertexSteps_undefined. discriminate.
Qed.

Lemma nearestVertexSteps_total (ks : list Z) (result : Z) (d : double) :
  (forall i, i ∈ ks -> slotIsFinite st cellIndex i -> slotIsReadable st cellIndex i) ->
  is_Some (fold_left (nearestVertexStep distance2 double_lt st cellIndex p) ks
                     (Some (result, d))).
Proof.
  revert result d. induction ks as [|k ks IH]; intros result d Hread; simpl.
  - eauto.
  - assert (Hrest : forall i, i ∈ ks -> slotIsFinite st cellIndex i ->
                               slotIsReadable st cellIndex i).
    { intros i Hi. apply Hread. right. exact Hi. }
    destruct (Z.ltb_spec (cell_vertex (_tetrahedralization st) cellIndex k) 0)
      as [Hneg | Hpos]; [apply IH; exact Hrest|].
    destruct (Hread k ltac:(left) Hpos) as [q Hq]. rewrite Hq.
    destruct (double_lt (distance2 q p) d); apply IH; exact Hrest.
Qed.

Lemma nearestVertexSteps_infinite (ks : list Z) (acc : Z * double) :
  (forall i, i ∈ ks -> ~ slotIsFinite st cellIndex i) ->
  fold_left (nearestVertexStep distance2 double_lt st cellIndex p) ks (Some acc)
  = Some acc.
Proof.
  induction ks as [|k ks IH]; intros Hinf; simpl; [reflexivity|].
  destruct acc as [result d].
  destruct (Z.ltb_spec (cell_vertex (_tetrahedralization st) cellIndex k) 0)
    as [_ | Hpos].
  - apply IH. intros i Hi. apply Hinf. right. exact Hi.
  - exfalso. apply (Hinf k); [left | exact Hpos].
Qed.

(** X6: [nearestVertexInCell] is defined exactly when every non-negative
    vertex reference of the cell is a position of [_verticesCoords] (a
    negative reference is skipped, never used as a subscript); its result is
    then [NO_TETRAHEDRON] or one of those non-negative references, converted
    to [index_t]; and for a cell whose four references are all negative it is
    [NO_TETRAHEDRON].  This holds whatever the distances are. *)
Theorem nearestVertexInCell_result :
  (is_Some (nearestVertexInCell distance2 double_max double_lt st cellIndex p)
   <-> forall i, 0 <= i < 4 -> slotIsFinite st cellIndex i -> slotIsReadable st cellIndex i)
  /\ (forall result,
        nearestVertexInCell distance2 double_max double_lt st cellIndex p
          = Some result ->
        result = NO_CELL
        \/ exists i, 0 <= i < 4 /\ slotIsFinite st cellIndex i /\ slotIsReadable st cellIndex i
             /\ result = to_index (cell_vertex (_tetrahedralization st) cellIndex i))
  /\ ((forall i, 0 <= i < 4 -> ~ slotIsFinite st cellIndex i) ->
      nearestVertexInCell distance2 double_max double_lt st cellIndex p
        = Some NO_CELL).
Proof.
  unfold nearestVertexInCell. split; [|split].
  - split.
    + intros Hsome i Hi.
      destruct (fold_left _ _ _) as [[result d]|] eqn:Hfold;
        [|destruct Hsome as [? H]; discriminate H].
      apply nearestVertexSteps_defined in Hfold. destruct Hfold as [Hread _].
      apply Hread. apply slot_elem_of. exact Hi.
    + intros Hread.
      destruct (nearestVertexSteps_total [0; 1; 2; 3]
                  (to_signed_index NO_CELL) double_max) as [[result d] Hfold].
      { intros i Hi. apply Hread. apply slot_elem_of. exact Hi. }
      rewrite Hfold. eauto.
  - intros result.
    destruct (fold_left _ _ _) as [[result' d]|] eqn:Hfold; [|discriminate].
    intros [= <-]. apply nearestVertexSteps_defined in Hfold.
    destruct Hfold as [Hread [-> | (i & Hi & Hfin & ->)]]; [left; reflexivity | right].
    exists i. split; [apply slot_elem_of; exact Hi|]. auto.
  - intros Hinf. rewrite nearestVertexSteps_infinite; [reflexivity|].
    intros i Hi. apply Hinf. apply slot_elem_of. exact Hi.
Qed.

End NearestVertexProofs.

(** ** More on the vertex-to-cells cache *)

Lemma storeEntries_length (entries : list (Z * gset Z)) (cache : list (list Z)) :
  length (fold_left storeEntry entries cache) = length cache.
Proof.
  revert cache. induction entries as [|it entries IH]; intros cache; simpl.
  - reflexivity.
  - rewrite IH. unfold storeEntry. apply length_insert.
Qed.

Lemma storeEntries_origin (entries : list (Z * gset Z)) (cache : list (list Z))
    (i : nat) (cells : list Z) :
  fold_left storeEntry entries cache !! i = Some cells ->
  cache !! i = Some cells
  \/ exists it, it ∈ entries /\ Z.to_nat it.1 = i /\ cells = assignFromSet it.2.
Proof.
  revert cache. induction entries as [|it entries IH]; intros cache; simpl.
  - auto.
  - intros H. destruct (IH _ H) as [Hc | (it' & Hin & Hi & Hcells)].
    + unfold storeEntry in Hc.
      destruct (decide (Z.to_nat it.1 = i)) as [Heq | Hne].
      * right. exists it. split; [left|]. split; [exact Heq|].
        rewrite Heq in Hc.
        destruct (decide (i < length cache)%nat) as [Hlt | Hge].
        -- rewrite list_lookup_insert_eq in Hc by exact Hlt. congruence.
        -- rewrite lookup_ge_None_2 in Hc; [discriminate|].
           rewrite length_insert. lia.
      * left. rewrite list_lookup_insert_ne in Hc by exact Hne. exact Hc.
    + right. exists it'. split; [right; exact Hin | auto].
Qed.

Lemma increasing_of_sorted (cells : list Z) :
  Sorted Z.le cells -> NoDup cells -> increasing cells.
Proof.
  intros Hs Hnd. apply Sorted_StronglySorted in Hs; [|apply _].
  induction Hs as [|x l Hl IH Hx]; [constructor|].
  apply NoDup_cons in Hnd. destruct Hnd as [Hfresh Hnd].
  constructor; [apply IH; exact Hnd|].
  rewrite Forall_forall in Hx |- *. intros y Hy.
  specialize (Hx y Hy). assert (x <> y) by (intros ->; contradiction). lia.
Qed.

Lemma assignFromSet_increasing (cells : gset Z) : increasing (assignFromSet cells).
Proof.
  apply increasing_of_sorted; [|apply assignFromSet_NoDup].
  unfold assignFromSet. apply Sorted_merge_sort. apply _.
Qed.

Lemma assignFromSet_empty : assignFromSet ∅ = [].
Proof. unfold assignFromSet. rewrite elements_empty. reflexivity. Qed.

(** The entry of a position of [_verticesCoords] after the rebuild. *)
Lemma rebuilt_entry {Point3d : Type} (st : DelaunayGraphCut Point3d) (vi : Z) :
  0 <= vi < Z.of_nat (length (_verticesCoords st)) ->
  _neighboringCellsPerVertex (updateVertexToCellsCache st) !! Z.to_nat vi
  = Some (assignFromSet (default ∅ ((collectNeighbors st).1 !! vi))).
Proof.
  intros Hvi. simpl.
  pose proof (keysInRange_collectNeighbors st) as Hkeys.
  destruct ((collectNeighbors st).1 !! vi) as [cells|] eqn:Hlook; simpl.
  - apply storeEntries_entry.
    + apply NoDup_fst_map_to_list.
    + intros [vi' s] Hit. apply elem_of_map_to_list in Hit. simpl.
      apply (Hkeys vi'). eauto.
    + apply elem_of_map_to_list. exact Hlook.
    + rewrite length_replicate. lia.
  - rewrite assignFromSet_empty, storeEntries_other.
    + apply lookup_replicate. split; [reflexivity | lia].
    + intros [vi' s] Hit Heq. apply elem_of_map_to_list in Hit. simpl in Heq.
      assert (0 <= vi') by (apply (Hkeys vi'); eauto).
      assert (vi' = vi) by lia. congruence.
Qed.

Lemma rebuilt_entry_elem_of {Point3d : Type} (st : DelaunayGraphCut Point3d)
    (vi ci : Z) :
  vi <> NO_VERTEX ->
  vi < Z.of_nat (length (_verticesCoords st)) ->
  ci ∈ assignFromSet (default ∅ ((collectNeighbors st).1 !! vi))
  <-> 0 <= ci < nb_cells (_tetrahedralization st)
      /\ cellHasVertex (_tetrahedralization st) ci vi.
Proof.
  intros Hno Hvi. rewrite assignFromSet_elem_of.
  change (ci ∈ default ∅ ((collectNeighbors st).1 !! vi))
    with (recorded (collectNeighbors st).1 vi ci).
  rewrite recorded_collectNeighbors. unfold cellHasVertex, slotHolds.
  split; intros [H1 [k Hk]]; (split; [exact H1|]); exists k; intuition.
Qed.

(** X7: the rebuilt cache has one entry per point of [_verticesCoords]; every
    entry, at any position, lists its cells in strictly increasing order and
    holds only cells of the triangulation that have the vertex of that
    position in one of their slots. *)
Theorem updateVertexToCellsCache_shape {Point3d : Type}
    (st : DelaunayGraphCut Point3d) :
  let cache := _neighboringCellsPerVertex (updateVertexToCellsCache st) in
  length cache = length (_verticesCoords st)
  /\ forall (i : nat) (cells : list Z),
       cache !! i = Some cells ->
       increasing cells
       /\ forall ci, ci ∈ cells ->
            0 <= ci < nb_cells (_tetrahedralization st)
            /\ cellHasVertex (_tetrahedralization st) ci (Z.of_nat i).
Proof.
  simpl. split.
  - rewrite storeEntries_length. apply length_replicate.
  - intros i cells Hcells. apply storeEntries_origin in Hcells.
    destruct Hcells as [Hrep | ([vi s] & Hin & Hi & ->)].
    + apply lookup_replicate in Hrep. destruct Hrep as [-> _].
      split; [constructor | intros ci Hci; inversion Hci].
    + split; [apply assignFromSet_increasing|]. simpl in *.
      apply elem_of_map_to_list in Hin.
      assert (Hkey : 0 <= vi < Z.of_nat (length (_verticesCoords st))).
      { apply (keysInRange_collectNeighbors st vi). eauto. }
      intros ci Hci. apply assignFromSet_elem_of in Hci.
      assert (Hrec : recorded (collectNeighbors st).1 vi ci).
      { unfold recorded. rewrite Hin. exact Hci. }
      apply recorded_collectNeighbors in Hrec.
      destruct Hrec as [Hrange (k & Hk & Hv & _)].
      split; [exact Hrange|]. exists k. split; [exact Hk|]. lia.
Qed.

(** X8: after the rebuild, the neighbour query throws exactly for the vertex
    indices that are not positions of [_verticesCoords]; for a position it
    returns the entry, which is empty exactly when no cell of the
    triangulation has that vertex. *)
Theorem query_after_rebuild {Point3d : Type} (st : DelaunayGraphCut Point3d)
    (vi : Z) :
  let st' := updateVertexToCellsCache st in
  (~ (0 <= vi < Z.of_nat (length (_verticesCoords st))) ->
   getNeighboringCellsByVertexIndex st' vi = Throw out_of_range)
  /\ (0 <= vi < Z.of_nat (length (_verticesCoords st)) ->
      exists cells,
        getNeighboringCellsByVertexIndex st' vi = Ok cells
        /\ (vi <> NO_VERTEX ->
            (cells = []
             <-> forall ci, 0 <= ci < nb_cells (_tetrahedralization st) ->
                            ~ cellHasVertex (_tetrahedralization st) ci vi))).
Proof.
  intros st'. split.
  - intros Hout. unfold getNeighboringCellsByVertexIndex. apply vector_at_Throw.
    subst st'. simpl. rewrite storeEntries_length, length_replicate. exact Hout.
  - intros Hvi. eexists. split.
    + unfold getNeighboringCellsByVertexIndex. apply vector_at_Ok; [lia|].
      apply (rebuilt_entry st vi Hvi).
    + intros Hno. split.
      * intros Hnil ci Hci Hhas.
        assert (Hin : ci ∈ assignFromSet (default ∅ ((collectNeighbors st).1 !! vi))).
        { apply rebuilt_entry_elem_of; [exact Hno | lia | auto]. }
        rewrite Hnil in Hin. inversion Hin.
      * intros Hnone.
        destruct (assignFromSet (default ∅ ((collectNeighbors st).1 !! vi)))
          as [|ci cells] eqn:Hcells; [reflexivity|]. exfalso.
        assert (Hin : ci ∈ assignFromSet (default ∅ ((collectNeighbors st).1 !! vi))).
        { rewrite Hcells. left. }
        apply rebuilt_entry_elem_of in Hin; [|exact Hno | lia].
        destruct Hin as [Hrange Hhas]. apply (Hnone ci Hrange Hhas).
Qed.

(** The value of [vertexToCells] for a vertex that has a cache entry. *)
Lemma vertexToCells_entry {Point3d : Type} (st : DelaunayGraphCut Point3d)
    (vi lvi : Z) (localCells : list Z) :
  0 <= vi ->
  _neighboringCellsPerVertex st !! Z.to_nat vi = Some localCells ->
  Z.of_nat (length localCells) < 2 ^ 63 ->
  int_range lvi ->
  vertexToCells st vi lvi
  = Ok (if decide (0 <= lvi < Z.of_nat (length localCells))
        then default NO_CELL (localCells !! Z.to_nat lvi) else NO_CELL).
Proof.
  intros Hvi Hentry Hlen Hint. unfold int_range in Hint.
  unfold vertexToCells. rewrite (vector_at_Ok _ vi localCells Hvi Hentry).
  destruct (decide (0 <= lvi < Z.of_nat (length localCells))) as [Hin | Hout].
  - rewrite to_size_small by (unfold size_modulus; lia).
    destruct (Z.geb_spec lvi (Z.of_nat (length localCells))) as [Hge | _]; [lia|].
    rewrite lookupZ_nat by lia. reflexivity.
  - destruct (Z_lt_le_dec lvi 0) as [Hneg | Hpos].
    + rewrite to_size_negative by (unfold size_modulus; lia).
      destruct (Z.geb_spec (lvi + size_modulus) (Z.of_nat (length localCells)))
        as [_ | Hlt]; [reflexivity|].
      unfold size_modulus in Hlt. lia.
    + rewrite to_size_small by (unfold size_modulus; lia).
      destruct (Z.geb_spec lvi (Z.of_nat (length localCells))) as [_ | Hlt];
        [reflexivity | lia].
Qed.

(** X9: [vertexToCells] throws [std::out_of_range] exactly when the vertex
    index is not a position of the cache; no value of [lvi] makes it throw. *)
Theorem vertexToCells_throws_iff {Point3d : Type} (st : DelaunayGraphCut Point3d)
    (vi lvi : Z) :
  (~ (0 <= vi < Z.of_nat (length (_neighboringCellsPerVertex st))) ->
   vertexToCells st vi lvi = Throw out_of_range)
  /\ (0 <= vi < Z.of_nat (length (_neighboringCellsPerVertex st)) ->
      exists ci, vertexToCells st vi lvi = Ok ci).
Proof.
  unfold vertexToCells. split.
  - intros Hout. rewrite vector_at_Throw by exact Hout. reflexivity.
  - intros Hin.
    destruct (lookup_lt_is_Some_2 (_neighboringCellsPerVertex st) (Z.to_nat vi))
      as [localCells Hentry]; [lia|].
    rewrite (vector_at_Ok _ vi localCells) by (lia || exact Hentry).
    destruct (_ >=? _); eauto.
Qed.

Lemma increasing_lookup (cells : list Z) (i j : nat) (ci cj : Z) :
  increasing cells -> (i < j)%nat ->
  cells !! i = Some ci -> cells !! j = Some cj -> ci < cj.
Proof.
  intros Hs. revert i j. induction Hs as [|x l Hl IH Hx]; intros i j Hij Hi Hj.
  - discriminate Hi.
  - destruct j as [|j]; [lia|]. simpl in Hj. destruct i as [|i]; simpl in Hi.
    + injection Hi as <-. rewrite Forall_forall in Hx. apply Hx.
      apply list_elem_of_lookup. eauto.
    + apply (IH i j); [lia | assumption | assumption].
Qed.

(** X10: after the rebuild, for a vertex of [_verticesCoords] and a
    triangulation whose cell count fits an [int], scanning [lvi] = 0, 1, 2,
    ... with [vertexToCells] enumerates the cells that have the vertex: there
    is a count [n] such that every [lvi] below [n] yields a cell of the
    triangulation holding the vertex (never [NO_CELL]), in strictly increasing
    order, every such cell is reached, and any other [lvi] yields [NO_CELL]. *)
Theorem vertexToCells_enumerates {Point3d : Type} (st : DelaunayGraphCut Point3d)
    (vi : Z) :
  cachedVertex st vi ->
  nb_cells (_tetrahedralization st) < 2 ^ 31 ->
  let st' := updateVertexToCellsCache st in
  let T := _tetrahedralization st in
  exists n,
    0 <= n < 2 ^ 31
    /\ (forall lvi, 0 <= lvi < n ->
          exists ci, vertexToCells st' vi lvi = Ok ci
                     /\ ci <> NO_CELL
                     /\ 0 <= ci < nb_cells T /\ cellHasVertex T ci vi)
    /\ (forall lvi, int_range lvi -> ~ (0 <= lvi < n) ->
          vertexToCells st' vi lvi = Ok NO_CELL)
    /\ (forall ci, 0 <= ci < nb_cells T -> cellHasVertex T ci vi ->
          exists lvi, 0 <= lvi < n /\ vertexToCells st' vi lvi = Ok ci)
    /\ (forall lvi lvi' ci ci',
          0 <= lvi -> lvi < lvi' -> lvi' < n ->
          vertexToCells st' vi lvi = Ok ci ->
          vertexToCells st' vi lvi' = Ok ci' -> ci < ci').
Proof.
  intros (Hno & Hvi) Hcells st' T.
  pose proof (rebuilt_entry st vi Hvi) as Hentry.
  pose proof (fun ci => rebuilt_entry_elem_of st vi ci Hno (proj2 Hvi)) as Helem.
  pose proof (assignFromSet_NoDup (default ∅ ((collectNeighbors st).1 !! vi))) as Hnd.
  pose proof (assignFromSet_increasing (default ∅ ((collectNeighbors st).1 !! vi)))
    as Hinc.
  set (cells := assignFromSet (default ∅ ((collectNeighbors st).1 !! vi))) in *.
  fold st' in Hentry. fold T in Helem, Hcells.
  assert (Hlen : Z.of_nat (length cells) < 2 ^ 31).
  { assert (Hsub : cells ⊆+ seqZ 0 (nb_cells T)).
    { apply NoDup_submseteq; [exact Hnd|]. intros ci Hci.
      apply Helem in Hci. apply elem_of_seqZ. lia. }
    apply submseteq_length in Hsub. rewrite length_seqZ in Hsub. lia. }
  assert (Heval : forall lvi, int_range lvi ->
            vertexToCells st' vi lvi
            = Ok (if decide (0 <= lvi < Z.of_nat (length cells))
                  then default NO_CELL (cells !! Z.to_nat lvi) else NO_CELL)).
  { intros lvi Hint. apply vertexToCells_entry; [lia | exact Hentry | lia | exact Hint]. }
  assert (Hat : forall lvi, 0 <= lvi < Z.of_nat (length cells) ->
            exists ci, cells !! Z.to_nat lvi = Some ci
                       /\ vertexToCells st' vi lvi = Ok ci).
  { intros lvi Hin.
    destruct (lookup_lt_is_Some_2 cells (Z.to_nat lvi)) as [ci Hci]; [lia|].
    exists ci. split; [exact Hci|].
    rewrite Heval by (unfold int_range; lia).
    destruct (decide _) as [_ | Hout]; [|contradiction].
    rewrite Hci. reflexivity. }
  exists (Z.of_nat (length cells)). split; [lia|]. split; [|split; [|split]].
  - intros lvi Hin. destruct (Hat lvi Hin) as (ci & Hci & Hv).
    exists ci. split; [exact Hv|].
    assert (Hci' : ci ∈ cells) by (apply list_elem_of_lookup; eauto).
    apply Helem in Hci'. destruct Hci' as [Hrange Hhas].
    rewrite NO_CELL_value. repeat split; try assumption; lia.
  - intros lvi Hint Hout. rewrite Heval by exact Hint.
    destruct (decide _) as [Hin | _]; [contradiction | reflexivity].
  - intros ci Hrange Hhas.
    assert (Hci : ci ∈ cells) by (apply Helem; auto).
    apply list_elem_of_lookup in Hci. destruct Hci as [i Hi].
    pose proof (lookup_lt_Some _ _ _ Hi) as Hlt.
    exists (Z.of_nat i). split; [lia|].
    destruct (Hat (Z.of_nat i) ltac:(lia)) as (ci' & Hci' & Hv).
    rewrite Nat2Z.id in Hci'. congruence.
  - intros lvi lvi' ci ci' Hpos Hlt Hn Hv Hv'.
    destruct (Hat lvi ltac:(lia)) as (c & Hc & Hvc).
    destruct (Hat lvi' ltac:(lia)) as (c' & Hc' & Hvc').
    assert (ci = c) by congruence. assert (ci' = c') by congruence. subst.
    apply (increasing_lookup cells (Z.to_nat lvi) (Z.to_nat lvi') c c' Hinc);
      [lia | assumption | assumption].
Qed.

Lemma vertexToCells_enumerates_witness :
  exists n,
    0 <= n < 2 ^ 31
    /\ (forall lvi, 0 <= lvi < n ->
          exists ci, vertexToCells (updateVertexToCellsCache twoCellsCut) 2 lvi = Ok ci
                     /\ ci <> NO_CELL
                     /\ 0 <= ci < nb_cells twoCells /\ cellHasVertex twoCells ci 2)
    /\ (forall lvi, int_range lvi -> ~ (0 <= lvi < n) ->
          vertexToCells (updateVertexToCellsCache twoCellsCut) 2 lvi = Ok NO_CELL)
    /\ (forall ci, 0 <= ci < nb_cells twoCells -> cellHasVertex twoCells ci 2 ->
          exists lvi, 0 <= lvi < n
            /\ vertexToCells (updateVertexToCellsCache twoCellsCut) 2 lvi = Ok ci)
    /\ (forall lvi lvi' ci ci',
          0 <= lvi -> lvi < lvi' -> lvi' < n ->
          vertexToCells (updateVertexToCellsCache twoCellsCut) 2 lvi = Ok ci ->
          vertexToCells (updateVertexToCellsCache twoCellsCut) 2 lvi' = Ok ci' ->
          ci < ci').
Proof.
  apply (vertexToCells_enumerates twoCellsCut 2).
  - split; [rewrite NO_VERTEX_value; lia | simpl; lia].
  - simpl. lia.
Defined.

(** * The view id method and its text form *)

Lemma stringToEnum_metadata :
  EViewIdMethod_stringToEnum "metadata" = Returned METADATA.
Proof. reflexivity. Qed.

Lemma stringToEnum_filename :
  EViewIdMethod_stringToEnum "filename" = Returned FILENAME.
Proof. reflexivity. Qed.

Lemma enumToString_Returned (viewIdMethod : Z) (name : string) :
  EViewIdMethod_enumToString viewIdMethod = Returned name ->
  (viewIdMethod = METADATA /\ name = "metadata")
  \/ (viewIdMethod = FILENAME /\ name = "filename").
Proof.
  unfold EViewIdMethod_enumToString.
  destruct (Z.eqb_spec viewIdMethod METADATA) as [-> | _].
  - intros [= <-]. left. auto.
  - destruct (Z.eqb_spec viewIdMethod FILENAME) as [-> | _]; [|discriminate].
    intros [= <-]. right. auto.
Qed.

Lemma stringToEnum_Returned (name : string) (viewIdMethod : Z) :
  EViewIdMethod_stringToEnum name = Returned viewIdMethod ->
  (viewIdMethod = METADATA /\ name = "metadata")
  \/ (viewIdMethod = FILENAME /\ name = "filename").
Proof.
  unfold EViewIdMethod_stringToEnum.
  destruct (String.eqb_spec name "metadata") as [-> | _].
  - intros [= <-]. left. auto.
  - destruct (String.eqb_spec name "filename") as [-> | _]; [|discriminate].
    intros [= <-]. right. auto.
Qed.

(** X11: a name produced by [EViewIdMethod_enumToString] is converted back
    by [EViewIdMethod_stringToEnum] to the value it came from, which is one
    of the two enumerators. *)
Theorem enumToString_stringToEnum (viewIdMethod : Z) (name : string) :
  EViewIdMethod_enumToString viewIdMethod = Returned name ->
  EViewIdMethod_stringToEnum name = Returned viewIdMethod
  /\ (viewIdMethod = METADATA \/ viewIdMethod = FILENAME).
Proof.
  intros H. apply enumToString_Returned in H.
  destruct H as [[-> ->] | [-> ->]]; split; auto.
Qed.

Lemma enumToString_stringToEnum_witness :
  EViewIdMethod_stringToEnum "filename" = Returned FILENAME
  /\ (FILENAME = METADATA \/ FILENAME = FILENAME).
Proof.
  apply (enumToString_stringToEnum FILENAME "filename"). reflexivity.
Defined.

(** X12: a string accepted by [EViewIdMethod_stringToEnum] is exactly
    "metadata" or "filename" (the comparison is case-sensitive and takes no
    prefix), and [EViewIdMethod_enumToString] gives that string back. *)
Theorem stringToEnum_enumToString (name : string) (viewIdMethod : Z) :
  EViewIdMethod_stringToEnum name = Returned viewIdMethod ->
  EViewIdMethod_enumToString viewIdMethod = Returned name
  /\ (name = "metadata" \/ name = "filename").
Proof.
  intros H. apply stringToEnum_Returned in H.
  destruct H as [[-> ->] | [-> ->]]; split; auto.
Qed.

Lemma stringToEnum_enumToString_witness :
  EViewIdMethod_enumToString METADATA = Returned "metadata"
  /\ ("metadata" = "metadata" \/ "metadata" = "filename").
Proof.
  apply (stringToEnum_enumToString "metadata" METADATA). reflexivity.
Defined.

Lemma c_str_digits (x : N) (s : string) :
  c_str s = s -> c_str (pretty_N_go x s) = pretty_N_go x s.
Proof.
  revert s. induction (N.lt_wf_0 x) as [x _ IH]. intros s Hs.
  assert (x = 0 \/ 0 < x)%N as [-> | Hpos] by lia.
  - rewrite pretty_N_go_0. exact Hs.
  - rewrite pretty_N_go_step by exact Hpos.
    apply IH; [apply N.div_lt; lia|].
    assert (Hdigit : Ascii.eqb (pretty_N_char (x `mod` 10)%N) Ascii.zero = false).
    { unfold pretty_N_char. repeat case_match; reflexivity. }
    simpl. rewrite Hdigit, Hs. reflexivity.
Qed.

Lemma c_str_to_string (n : Z) : c_str (to_string n) = to_string n.
Proof.
  unfold to_string, pretty, pretty_Z. destruct n as [|x|x].
  - reflexivity.
  - unfold pretty, pretty_positive, pretty, pretty_N.
    destruct (decide _); [reflexivity | apply c_str_digits; reflexivity].
  - change (c_str ("-" +:+ pretty x)) with ("-" +:+ c_str (pretty x)). f_equal.
    unfold pretty, pretty_positive, pretty, pretty_N.
    destruct (decide _); [reflexivity | apply c_str_digits; reflexivity].
Qed.

Lemma enum_message (tail : string) :
  c_str ("Invalid ViewIdMethod type Enum: " +:+ tail)
  = "Invalid ViewIdMethod type Enum: " +:+ c_str tail.
Proof. reflexivity. Qed.

Lemma string_message (tail : string) :
  c_str ("Invalid ViewIdMethod type string " +:+ tail)
  = "Invalid ViewIdMethod type string " +:+ c_str tail.
Proof. reflexivity. Qed.

Lemma enumToString_Thrown (viewIdMethod : Z) (e : thrown) :
  EViewIdMethod_enumToString viewIdMethod = Thrown e ->
  e = std_out_of_range
        ("Invalid ViewIdMethod type Enum: " +:+ to_string viewIdMethod).
Proof.
  unfold EViewIdMethod_enumToString.
  destruct (viewIdMethod =? METADATA); [discriminate|].
  destruct (viewIdMethod =? FILENAME); [discriminate|].
  intros [= <-]. unfold out_of_range_what.
  rewrite enum_message, c_str_to_string. reflexivity.
Qed.

Lemma stringToEnum_Thrown (name : string) (e : thrown) :
  EViewIdMethod_stringToEnum name = Thrown e ->
  e = std_out_of_range ("Invalid ViewIdMethod type string " +:+ c_str name).
Proof.
  unfold EViewIdMethod_stringToEnum.
  destruct (String.eqb name "metadata"); [discriminate|].
  destruct (String.eqb name "filename"); [discriminate|].
  intros [= <-]. unfold out_of_range_what. rewrite string_message. reflexivity.
Qed.

(** X13: both conversions fail loudly and say why.  A value other than the
    two enumerators makes [EViewIdMethod_enumToString] throw
    [std::out_of_range] with a message ending in the decimal value, so that
    two different bad values give different messages.  Any string other than
    the two names makes [EViewIdMethod_stringToEnum] throw with a message
    ending in that string cut at its first NUL character, so that two bad
    names give the same message exactly when they agree up to their first
    NUL. *)
Theorem viewIdMethod_conversion_errors :
  (forall viewIdMethod,
     viewIdMethod <> METADATA -> viewIdMethod <> FILENAME ->
     EViewIdMethod_enumToString viewIdMethod
     = Thrown (std_out_of_range
                 ("Invalid ViewIdMethod type Enum: " +:+ to_string viewIdMethod)))
  /\ (forall a b e,
        EViewIdMethod_enumToString a = Thrown e ->
        EViewIdMethod_enumToString b = Thrown e -> a = b)
  /\ (forall name,
        name <> "metadata" -> name <> "filename" ->
        EViewIdMethod_stringToEnum name
        = Thrown (std_out_of_range
                    ("Invalid ViewIdMethod type string " +:+ c_str name)))
  /\ (forall name name' e e',
        EViewIdMethod_stringToEnum name = Thrown e ->
        EViewIdMethod_stringToEnum name' = Thrown e' ->
        (e = e' <-> c_str name = c_str name')).
Proof.
  split; [|split; [|split]].
  - intros viewIdMethod Hm Hf.
    destruct (EViewIdMethod_enumToString viewIdMethod) as [name|e] eqn:He.
    + apply enumToString_Returned in He. tauto.
    + apply enumToString_Thrown in He. subst e. reflexivity.
  - intros a b e Ha Hb. apply enumToString_Thrown in Ha.
    apply enumToString_Thrown in Hb.
    rewrite Ha in Hb. injection Hb as Hb.
    apply (inj (String.app _)) in Hb. unfold to_string in Hb.
    apply (inj pretty) in Hb. exact Hb.
  - intros name Hm Hf.
    destruct (EViewIdMethod_stringToEnum name) as [viewIdMethod|e] eqn:He.
    + apply stringToEnum_Returned in He. tauto.
    + apply stringToEnum_Thrown in He. subst e. reflexivity.
  - intros name name' e e' He He'.
    apply stringToEnum_Thrown in He. apply stringToEnum_Thrown in He'.
    subst e e'. split.
    + intros [= H]. apply (inj (String.app _)) in H. exact H.
    + intros ->. reflexivity.
Qed.

(** A bad name with an embedded NUL: the message stops before it. *)
Example stringToEnum_embedded_nul :
  EViewIdMethod_stringToEnum
    (String.append "metadata" (String Ascii.zero "x"))
  = Thrown (std_out_of_range "Invalid ViewIdMethod type string metadata").
Proof. reflexivity. Qed.

(** ** Reading and writing through streams *)

Lemma skipWhitespace_spaces (spaces s : string) :
  allWhitespace spaces = true ->
  skipWhitespace (spaces +:+ s) = skipWhitespace s.
Proof.
  induction spaces as [|c spaces IH]; intros Hs; [reflexivity|].
  simpl in Hs. apply andb_true_iff in Hs. destruct Hs as [Hc Hs].
  change (String c spaces +:+ s) with (String c (spaces +:+ s)).
  simpl. rewrite Hc. apply IH. exact Hs.
Qed.

Lemma takeToken_end (s : string) :
  endsToken s = true -> takeToken s = (EmptyString, s).
Proof.
  destruct s as [|c s]; simpl; [reflexivity|]. intros ->. reflexivity.
Qed.

Lemma skipWhitespace_all (s : string) :
  allWhitespace s = true -> skipWhitespace s = EmptyString.
Proof.
  induction s as [|c s IH]; simpl; [reflexivity|].
  intros Hs. apply andb_true_iff in Hs. destruct Hs as [-> Hs]. apply IH, Hs.
Qed.

Lemma takeToken_char (c : Ascii.ascii) (s : string) :
  Ascii.is_space c = false ->
  takeToken (String c s) = (String c (takeToken s).1, (takeToken s).2).
Proof. intros H. simpl. rewrite H. reflexivity. Qed.

Lemma extractToken_name (name rest spaces token : string) :
  name = "metadata" \/ name = "filename" ->
  allWhitespace spaces = true ->
  endsToken rest = true ->
  extractToken (istringstream (spaces +:+ ("" +:+ name) +:+ rest)) token
  = ({| unread := rest;
        eofbit := bool_decide (rest = EmptyString);
        failbit := false |}, name).
Proof.
  intros Hname Hspaces Hrest. unfold extractToken, istringstream.
  cbn [good eofbit failbit unread negb andb].
  rewrite skipWhitespace_spaces by exact Hspaces.
  destruct Hname as [-> | ->]; cbv [String.append];
    cbn [skipWhitespace Ascii.is_space];
    rewrite !takeToken_char by reflexivity;
    rewrite (takeToken_end rest Hrest); reflexivity.
Qed.

(** X14: what [operator<<] writes for a view id method, [operator>>] reads
    back: from a fresh stream holding optional leading whitespace, the
    written name, and then nothing or something that starts with
    whitespace, it returns the same value, consumes up to the end of the
    name, does not fail, and sets [eofbit] exactly when nothing follows. *)
Theorem viewIdMethod_stream_round_trip (viewIdMethod : Z)
    (text spaces rest : string) :
  writeEViewIdMethod "" viewIdMethod = Returned text ->
  allWhitespace spaces = true ->
  endsToken rest = true ->
  readEViewIdMethod (istringstream (spaces +:+ text +:+ rest))
  = ({| unread := rest;
        eofbit := bool_decide (rest = EmptyString);
        failbit := false |},
     Returned viewIdMethod).
Proof.
  intros Hwrite Hspaces Hrest. unfold writeEViewIdMethod in Hwrite.
  destruct (EViewIdMethod_enumToString viewIdMethod) as [name|] eqn:Hname;
    [|discriminate].
  injection Hwrite as <-. apply enumToString_Returned in Hname.
  unfold readEViewIdMethod. f_equal.
  - rewrite (extractToken_name name rest spaces EmptyString); try assumption;
      [reflexivity | tauto].
  - rewrite (extractToken_name name rest spaces EmptyString); try assumption;
      [|tauto].
    simpl. destruct Hname as [[-> ->] | [-> ->]]; reflexivity.
Qed.

Lemma viewIdMethod_stream_round_trip_witness :
  readEViewIdMethod (istringstream ("  " +:+ "filename" +:+ " metadata"))
  = ({| unread := " metadata";
        eofbit := bool_decide (" metadata" = EmptyString);
        failbit := false |},
     Returned FILENAME).
Proof.
  apply (viewIdMethod_stream_round_trip FILENAME "filename" "  " " metadata");
    reflexivity.
Defined.

(** X15: reading a view id method from a stream that is not good, or that
    holds nothing but whitespace, extracts no word: the conversion of the
    empty token throws [std::out_of_range], and the stream is left with
    [failbit] set. *)
Theorem viewIdMethod_read_nothing (input : istream) :
  good input = false \/ allWhitespace (unread input) = true ->
  (readEViewIdMethod input).2
  = Thrown (std_out_of_range "Invalid ViewIdMethod type string ")
  /\ failbit (readEViewIdMethod input).1 = true.
Proof.
  intros H. unfold readEViewIdMethod, extractToken.
  destruct (good input) eqn:Hgood.
  - destruct H as [H | H]; [discriminate|].
    rewrite (skipWhitespace_all _ H). simpl. split; reflexivity.
  - simpl. split; reflexivity.
Qed.

Lemma viewIdMethod_read_nothing_witness :
  (readEViewIdMethod (istringstream "   ")).2
  = Thrown (std_out_of_range "Invalid ViewIdMethod type string ")
  /\ failbit (readEViewIdMethod (istringstream "   ")).1 = true.
Proof.
  apply (viewIdMethod_read_nothing (istringstream "   ")).
  right. reflexivity.
Defined.
